(** * Shunting-yard calculator: a shallow embedding of [calculator.cpp]

    The development follows the source file top to bottom: the operator
    contract table ([opContracts]), the token type, the tokeniser
    ([tokenise]), the two-argument dispatcher ([evaluate]), the
    shunting-yard evaluator ([expression]) and the read loop ([main]).

    - [double] is IEEE-754 binary64, modelled by Rocq's primitive floats.
    - [std::map<char, OpContract>] is a [gmap ascii OpContract]; the table is
      a global, so the evaluator threads it as state.
    - [std::queue<double>] is a list whose head is the front of the queue;
      [std::stack<Token>] is a list whose head is the top of the stack.
    - [exit(EXIT_FAILURE)] is the outcome [Exit e]; an operation the C++
      standard leaves undefined (front of an empty queue, reading a member
      that was never initialised) is the outcome [Undefined]. *)

From Stdlib Require Import ZArith List Ascii String Lia.
From Stdlib Require Import Floats.PrimFloat Floats.SpecFloat Floats.FloatOps.
From stdpp Require Import base option list gmap strings.
Import ListNotations.

Local Open Scope Z_scope.
Local Open Scope list_scope.

(** ** Outcomes of a run *)

(** The four diagnostics of the program, named as the specification names
    them (Invalid token, Operator c is not supported, Mismatched
    parenthesis, Mismatched operands). *)
Inductive Error : Type :=
| InvalidNumber
| UnsupportedOperator (symbol : ascii)
| MismatchedParenthesis
| InsufficientOperands.

Inductive outcome (A : Type) : Type :=
| Return (a : A)
| Exit (e : Error)
| Undefined.

Arguments Return {A} a.
Arguments Exit {A} e.
Arguments Undefined {A}.

(** ** Doubles *)

Abbreviation double := PrimFloat.float.

Module Double.

(** [numeric_limits<double>::max()]. *)
Definition max : double := SF2Prim (SFmax_float prec emax).

(** The correctly rounded (to nearest, ties to even) binary64 value of
    the decimal [(-1)^neg * m * 10^e10], [m >= 0]: what [strtod] computes
    for a decimal literal. *)
Definition of_decimal (neg : bool) (m e10 : Z) : spec_float :=
  match m with
  | Zpos p =>
      if 0 <=? e10
      then
        match Z.pos p * 10 ^ e10 with
        | Zpos n => binary_round prec emax neg n 0
        | _ => S754_zero neg
        end
      else
        let '(q, e, l) :=
          SFdiv_core_binary prec emax (Z.pos p) 0 (10 ^ (- e10)) 0 in
        binary_round_aux prec emax neg q e l
  | _ => S754_zero neg
  end.

End Double.

Local Open Scope float_scope.

(** ** The operator contract table (calculator.cpp, lines 10-31) *)

Definition EvaluateFunc : Type := double -> double -> double.

(** [struct OpContract]. The three-argument constructor sets every member;
    the default constructor [OpContract() {}] sets none, so an object made
    by it holds indeterminate members: [Uninitialised]. Such an object can
    be stored and copied as it is; using one of its members (comparing the
    precedence, calling the function) is undefined. *)
Inductive OpContract : Type :=
| Contract (func : EvaluateFunc) (precedence : Z) (leftAssociativity : bool)
| Uninitialised.

Section Table.

(** [pow] of <cmath>: the one function of the table that is not an
    IEEE-754 basic operation. *)
Variable pow : double -> double -> double.

Definition opContracts : gmap ascii OpContract :=
  <["+"%char := Contract (fun a b => a + b) 1 true]>
 (<["-"%char := Contract (fun a b => a - b) 1 true]>
 (<["*"%char := Contract (fun a b => a * b) 2 true]>
 (<["/"%char := Contract (fun a b => a / b) 2 true]>
 (<["^"%char := Contract (fun a b => pow a b) 3 false]> ∅)))).

End Table.

(** ** Tokens (lines 33-39) *)

Inductive TokenType : Type := LEFT_BRACKET | RIGHT_BRACKET | NUMBER | OPERATOR.

Definition TokenType_eqb (a b : TokenType) : bool :=
  match a, b with
  | LEFT_BRACKET, LEFT_BRACKET | RIGHT_BRACKET, RIGHT_BRACKET
  | NUMBER, NUMBER | OPERATOR, OPERATOR => true
  | _, _ => false
  end.

(** [struct Token]. [Token t;] initialises no member, and the tokeniser
    then sets [type] and at most one of the other two: [None] is a member
    that was never written. *)
Record Token : Type := mkToken {
  type : TokenType;
  symbol : option ascii;
  value : option double
}.

(** The four shapes of token the tokeniser builds. *)
Definition LeftBracket : Token := mkToken LEFT_BRACKET None None.
Definition RightBracket : Token := mkToken RIGHT_BRACKET None None.
Definition Number (v : double) : Token := mkToken NUMBER None (Some v).
Definition Operator (c : ascii) : Token := mkToken OPERATOR (Some c) None.

(** ** The input stream of [tokenise] *)

(** [std::istringstream]: the characters not yet extracted and the two
    state bits the tokeniser can raise. *)
Record istringstream : Type := mkStream {
  buf : list ascii;
  eofbit : bool;
  failbit : bool
}.

Module Stream.

Definition open (input : string) : istringstream :=
  mkStream (list_ascii_of_string input) false false.

Definition good (s : istringstream) : bool :=
  negb (eofbit s) && negb (failbit s).

(** [peek()] on a good stream: the next character, or end of file with
    [eofbit] raised. *)
Definition peek (s : istringstream) : option ascii * istringstream :=
  match buf s with
  | c :: _ => (Some c, s)
  | [] => (None, mkStream [] true (failbit s))
  end.

(** [ignore(1)] on a good stream. *)
Definition ignore1 (s : istringstream) : istringstream :=
  match buf s with
  | _ :: rest => mkStream rest (eofbit s) (failbit s)
  | [] => mkStream [] true (failbit s)
  end.

Definition isdigit (c : ascii) : bool :=
  let n := N_of_ascii c in ((48 <=? n) && (n <=? 57))%N.

Definition digit_value (c : ascii) : Z := Z.of_N (N_of_ascii c) - 48.

Definition digits_value (ds : list ascii) : Z :=
  fold_left (fun acc c => 10 * acc + digit_value c)%Z ds 0%Z.

(** The longest prefix of decimal digits, and what follows it. *)
Fixpoint take_digits (s : list ascii) : list ascii * list ascii :=
  match s with
  | c :: rest =>
      if isdigit c
      then let '(ds, rest') := take_digits rest in (c :: ds, rest')
      else ([], s)
  | [] => ([], [])
  end.

Definition take_sign (s : list ascii) : bool * list ascii :=
  match s with
  | c :: rest =>
      if (c =? "-")%char then (true, rest)
      else if (c =? "+")%char then (false, rest)
      else (false, s)
  | [] => (false, s)
  end.

(** The characters of a floating-point field: sign, integer digits,
    fraction digits, and the exponent part when an [e] was taken. *)
Record field : Type := mkField {
  negative : bool;
  int_digits : list ascii;
  frac_digits : list ascii;
  exponent : option (bool * list ascii)
}.

Definition scan_field (s : list ascii) : field * list ascii :=
  let '(neg, s1) := take_sign s in
  let '(ip, s2) := take_digits s1 in
  let '(fp, s3) :=
    match s2 with
    | c :: rest => if (c =? ".")%char then take_digits rest else ([], s2)
    | [] => ([], s2)
    end in
  let found_mantissa :=
    match ip, fp with [], [] => false | _, _ => true end in
  let '(ex, s4) :=
    match s3 with
    | c :: rest =>
        if ((c =? "e")%char || (c =? "E")%char) && found_mantissa
        then
          let '(eneg, r1) := take_sign rest in
          let '(ed, r2) := take_digits r1 in
          (Some (eneg, ed), r2)
        else (None, s3)
    | [] => (None, s3)
    end in
  (mkField neg ip fp ex, s4).

(** The conversion of a scanned field: [None] when the field is not a
    complete literal (no mantissa digit, or an [e] without digits). *)
Definition field_value (f : field) : option spec_float :=
  match int_digits f, frac_digits f with
  | [], [] => None
  | ip, fp =>
      let m := digits_value (ip ++ fp) in
      let shift := (- Z.of_nat (length fp))%Z in
      match exponent f with
      | None => Some (Double.of_decimal (negative f) m shift)
      | Some (_, []) => None
      | Some (eneg, ed) =>
          let e := digits_value ed in
          Some (Double.of_decimal (negative f) m
                  ((if eneg then - e else e) + shift)%Z)
      end
  end.

(** Modelled from the spec: [stream >> t.value] is the standard library's
    extraction of a [double], which is not part of src/. The field taken
    is the specification's literal (sign, digits, optional fractional
    part, optional exponent), scanned greedily, and converted with
    correct rounding. A field that is not a complete literal raises
    [failbit] and stores zero; a literal beyond the range of [double]
    raises [failbit] and stores the largest finite value (C++11).
    Reaching the end of the buffer raises [eofbit]. *)
Definition extract_double (s : istringstream) : double * istringstream :=
  let '(f, rest) := scan_field (buf s) in
  let eof := match rest with [] => true | _ => eofbit s end in
  match field_value f with
  | None => (0, mkStream rest eof true)
  | Some (S754_infinity sign) =>
      ((if sign then - Double.max else Double.max), mkStream rest eof true)
  | Some v => (SF2Prim v, mkStream rest eof (failbit s))
  end.

End Stream.

(** ** [tokenise] (lines 41-87) *)

(** What one turn of the [while] loop does to the loop itself. *)
Inductive turn : Type :=
| Break
| Next (stream : istringstream) (tokens : list Token)
| Stop (e : Error).

(** [tokens.empty() || tokens.back().type != NUMBER] *)
Definition sign_position (tokens : list Token) : bool :=
  match last tokens with
  | None => true
  | Some t => negb (TokenType_eqb (type t) NUMBER)
  end.

(** The body of the loop, lines 45-84, on a stream that is [good]. *)
Definition tokenise_turn (stream : istringstream) (tokens : list Token) : turn :=
  match Stream.peek stream with
  | (None, _) => Break
  | (Some peek, stream) =>
      if (peek =? " ")%char then Next (Stream.ignore1 stream) tokens
      else if (peek =? "(")%char then
        Next (Stream.ignore1 stream) (tokens ++ [LeftBracket])
      else if (peek =? ")")%char then
        Next (Stream.ignore1 stream) (tokens ++ [RightBracket])
      else if ((peek =? "+")%char || (peek =? "-")%char)
              && sign_position tokens then
        let '(v, stream) := Stream.extract_double stream in
        if failbit stream then Stop InvalidNumber
        else Next stream (tokens ++ [Number v])
      else if Stream.isdigit peek then
        let '(v, stream) := Stream.extract_double stream in
        Next stream (tokens ++ [Number v])
      else
        Next (Stream.ignore1 stream) (tokens ++ [Operator peek])
  end.

(** [while (stream.good()) { ... }]; [fuel] bounds the number of turns and
    [None] is running out of it. *)
Fixpoint tokenise_loop (fuel : nat) (stream : istringstream)
    (tokens : list Token) : option (outcome (list Token)) :=
  if Stream.good stream then
    match fuel with
    | O => None
    | S fuel =>
        match tokenise_turn stream tokens with
        | Break => Some (Return tokens)
        | Next stream tokens => tokenise_loop fuel stream tokens
        | Stop e => Some (Exit e)
        end
    end
  else Some (Return tokens).

(** Every turn but the last extracts a character, so one more turn than
    the line has characters is always enough (see [tokenise_loop_fuel]). *)
Definition tokenise_fuel (input : string) : nat := S (String.length input).

Definition tokenise (input : string) : outcome (list Token) :=
  match tokenise_loop (tokenise_fuel input) (Stream.open input) [] with
  | Some r => r
  | None => Undefined
  end.

(** ** The evaluator's effects *)

(** The evaluator reads and (through [operator[]]) writes the global table,
    may terminate the process, and may step outside defined behaviour: a
    state monad over the table whose results are outcomes. The table is
    kept in every case, so that what a run did to it can be stated. *)
Definition M (A : Type) : Type :=
  gmap ascii OpContract -> outcome A * gmap ascii OpContract.

Definition ret {A} (a : A) : M A := fun t => (Return a, t).

Definition bind {A B} (m : M A) (k : A -> M B) : M B :=
  fun t =>
    match m t with
    | (Return a, t') => k a t'
    | (Exit e, t') => (Exit e, t')
    | (Undefined, t') => (Undefined, t')
    end.

Definition exit {A} (e : Error) : M A := fun t => (Exit e, t).
Definition undefined {A} : M A := fun t => (Undefined, t).

Notation "x <- m ; k" := (bind m (fun x => k))
  (at level 20, m at level 100, k at level 200, only parsing).
Notation "' pat <- m ; k" := (bind m (fun x => match x with pat => k end))
  (at level 20, pat pattern, m at level 100, k at level 200, only parsing).

(** Reading a member of a struct: undefined when it was never written. *)
Definition read {A} (member : option A) : M A :=
  match member with
  | Some a => ret a
  | None => undefined
  end.

(** [opContracts[c]]: [std::map::operator[]] returns the mapped value and,
    when the key is absent, first inserts a default-constructed one. *)
Definition index (c : ascii) : M OpContract :=
  fun t =>
    match t !! c with
    | Some contract => (Return contract, t)
    | None => (Return Uninitialised, <[c := Uninitialised]> t)
    end.

(** [opContracts.find(c)]: a lookup that leaves the table alone. *)
Definition find (c : ascii) : M (option OpContract) :=
  fun t => (Return (t !! c), t).

(** [output.front()] and [output.pop()] of a [std::queue<double>]: both
    are undefined on an empty queue. *)
Definition front (output : list double) : M double :=
  match output with
  | x :: _ => ret x
  | [] => undefined
  end.

Definition pop (output : list double) : M (list double) :=
  match output with
  | _ :: rest => ret rest
  | [] => undefined
  end.

(** ** [evaluate] (lines 89-99) *)

Definition evaluate (left : double) (op : ascii) (right : double) : M double :=
  search <- find op ;
  match search with
  | Some (Contract func _ _) => ret (func left right)
  | Some Uninitialised => undefined
  | None => exit (UnsupportedOperator op)
  end.

(** ** [expression] (lines 101-192) *)

(** The condition of lines 119-122; it reads members of both contracts. *)
Definition reduces (contract1 contract2 : OpContract) : M bool :=
  match contract1, contract2 with
  | Contract _ precedence1 leftAssociativity1, Contract _ precedence2 _ =>
      ret ((leftAssociativity1 && (precedence1 <=? precedence2)%Z)
           || (negb leftAssociativity1 && (precedence1 <? precedence2)%Z))
  | _, _ => undefined
  end.

(** Lines 126-131, 150-156 and 183-188: take two operands from the front
    of [output], apply the operator of token [op], push the result. *)
Definition apply (op : Token) (output : list double) : M (list double) :=
  left <- front output ;
  output <- pop output ;
  right <- front output ;
  output <- pop output ;
  sym <- read (symbol op) ;
  v <- evaluate left sym right ;
  ret (output ++ [v]).

(** The [while] loop of an OPERATOR token, lines 112-136. *)
Fixpoint reduce (token : Token) (operators : list Token)
    (output : list double) {struct operators}
    : M (list Token * list double) :=
  match operators with
  | [] => ret (operators, output)
  | op2 :: below =>
      sym1 <- read (symbol token) ;
      contract1 <- index sym1 ;
      if negb (TokenType_eqb (type op2) OPERATOR) then ret (operators, output)
      else
        sym2 <- read (symbol op2) ;
        contract2 <- index sym2 ;
        go <- reduces contract1 contract2 ;
        if go : bool then
          output <- apply op2 output ;
          reduce token below output
        else ret (operators, output)
  end.

(** The RIGHT_BRACKET branch, lines 144-164: reduce down to the nearest
    left bracket and drop it. *)
Fixpoint unwind (operators : list Token) (output : list double)
    {struct operators} : M (list Token * list double) :=
  match operators with
  | [] => exit MismatchedParenthesis
  | op :: below =>
      if TokenType_eqb (type op) LEFT_BRACKET then ret (below, output)
      else
        output <- apply op output ;
        unwind below output
  end.

(** The body of the [for] loop, lines 107-165. *)
Definition scan_token (token : Token) (output : list double)
    (operators : list Token) : M (list double * list Token) :=
  match type token with
  | NUMBER =>
      v <- read (value token) ;
      ret (output ++ [v], operators)
  | OPERATOR =>
      '(operators, output) <- reduce token operators output ;
      ret (output, token :: operators)
  | LEFT_BRACKET => ret (output, token :: operators)
  | RIGHT_BRACKET =>
      '(operators, output) <- unwind operators output ;
      ret (output, operators)
  end.

Fixpoint scan (tokens : list Token) (output : list double)
    (operators : list Token) : M (list double * list Token) :=
  match tokens with
  | [] => ret (output, operators)
  | token :: tokens =>
      '(output, operators) <- scan_token token output operators ;
      scan tokens output operators
  end.

(** The final [while] loop and the [return], lines 168-191. *)
Fixpoint drain (operators : list Token) (output : list double)
    {struct operators} : M double :=
  match operators with
  | [] => front output
  | token :: below =>
      if TokenType_eqb (type token) LEFT_BRACKET
         || TokenType_eqb (type token) RIGHT_BRACKET
      then exit MismatchedParenthesis
      else if (length output <? 2)%nat then exit InsufficientOperands
      else
        output <- apply token output ;
        drain below output
  end.

Definition expression (tokens : list Token) : M double :=
  '(output, operators) <- scan tokens [] [] ;
  drain operators output.

(** ** [main] (lines 194-212) *)

(** [tokenise] does not touch the table. *)
Definition lift {A} (r : outcome A) : M A := fun t => (r, t).

(** Lines 207-208: one non-empty line, tokenised and evaluated. *)
Definition calculate (input : string) : M double :=
  tokens <- lift (tokenise input) ;
  expression tokens.

(** The read loop over the lines of standard input: the values printed,
    how the process ended, and the table it left. *)
Fixpoint main (stdin : list string) (t : gmap ascii OpContract)
    : list double * (outcome unit * gmap ascii OpContract) :=
  match stdin with
  | [] => ([], (Return tt, t))
  | input :: rest =>
      if (String.length input =? 0)%nat then main rest t
      else
        match calculate input t with
        | (Return v, t') =>
            let '(printed, r) := main rest t' in (v :: printed, r)
        | (Exit e, t') => ([], (Exit e, t'))
        | (Undefined, t') => ([], (Undefined, t'))
        end
  end.

(** ** A reference evaluator *)

(** This part follows the specification, not the program: the expected
    value of an expression, against which [expression] is compared.
    Arithmetic expressions are trees; [reference] applies each operator to
    the values of its own two operands; [infix] is the fully parenthesized
    token sequence of a tree. *)
Inductive Expr : Type :=
| Lit (v : double)
| Bin (op : ascii) (lhs rhs : Expr).

Fixpoint reference (t : gmap ascii OpContract) (e : Expr) : option double :=
  match e with
  | Lit v => Some v
  | Bin op lhs rhs =>
      match t !! op, reference t lhs, reference t rhs with
      | Some (Contract func _ _), Some a, Some b => Some (func a b)
      | _, _, _ => None
      end
  end.

Fixpoint infix (e : Expr) : list Token :=
  match e with
  | Lit v => [Number v]
  | Bin op lhs rhs =>
      [LeftBracket] ++ infix lhs ++ [Operator op] ++ infix rhs ++ [RightBracket]
  end.

(** ** A concrete [pow] for closed examples *)

Module Pow.

(** The whole number a double denotes, when it is one and not negative. *)
Definition whole (b : double) : option N :=
  match Prim2SF b with
  | S754_zero _ => Some 0%N
  | S754_finite false m e =>
      match e with
      | Z0 => Some (N.pos m)
      | Zpos k => Some (N.shiftl (N.pos m) (N.pos k))
      | Zneg k =>
          if (N.land (N.pos m) (N.ones (N.pos k)) =? 0)%N
          then Some (N.shiftr (N.pos m) (N.pos k))
          else None
      end
  | _ => None
  end.

(** Repeated multiplication for a whole, non-negative exponent: where
    the power is exactly representable this is the value every [pow]
    returns. Outside that domain the function is only a placeholder. *)
Definition repeated (a b : double) : double :=
  match whole b with
  | Some n => N.iter n (fun acc => acc * a) 1
  | None => nan
  end.

End Pow.

(** ** Auxiliary definitions for the statements *)

Definition is_return {A} (r : outcome A) : bool :=
  match r with Return _ => true | _ => false end.

(** An operator token whose symbol the table maps to an uninitialised
    contract, and the relation between the table a run started from and
    the table it has now: the same, unless such a token is waiting on the
    operator stack. *)
Definition poisoned (t : gmap ascii OpContract) (op : Token) : Prop :=
  type op = OPERATOR
  /\ exists c, symbol op = Some c /\ t !! c = Some Uninitialised.

Definition kept (t0 : gmap ascii OpContract) (operators : list Token)
    (t : gmap ascii OpContract) : Prop :=
  t = t0 \/ Exists (poisoned t) operators.

Definition is_bracket (token : Token) : Prop :=
  type token = LEFT_BRACKET \/ type token = RIGHT_BRACKET.

(** A line of [n] spaces. *)
Fixpoint spaces (n : nat) : string :=
  match n with
  | O => EmptyString
  | S n => String " " (spaces n)
  end.

(** ** Shapes and measures of token sequences *)

(** The four shapes [tokenise] gives a token; an operator symbol is never
    a space, a bracket or a digit. *)
Definition shaped (t : Token) : Prop :=
  t = LeftBracket \/ t = RightBracket \/ (exists v, t = Number v)
  \/ (exists c, t = Operator c
        /\ c <> " "%char /\ c <> "("%char /\ c <> ")"%char
        /\ Stream.isdigit c = false).

(** Every operator token [+] or [-] stands right after a token of type
    NUMBER. *)
Definition sign_follows_number (tokens : list Token) : Prop :=
  forall (i : nat) (c : ascii),
    tokens !! i = Some (Operator c) ->
    c = "+"%char \/ c = "-"%char ->
    exists (j : nat) (t : Token),
      i = S j /\ tokens !! j = Some t /\ type t = NUMBER.

(** How many tokens of a sequence have a given type. *)
Fixpoint count (ty : TokenType) (tokens : list Token) : nat :=
  match tokens with
  | [] => O
  | token :: tokens =>
      ((if TokenType_eqb (type token) ty then 1 else 0) + count ty tokens)%nat
  end.

(** The nesting depth after a token sequence read from depth [d]; [None]
    when a right bracket comes with no left bracket open. *)
Fixpoint depth (tokens : list Token) (d : nat) : option nat :=
  match tokens with
  | [] => Some d
  | token :: tokens =>
      match type token with
      | LEFT_BRACKET => depth tokens (S d)
      | RIGHT_BRACKET =>
          match d with
          | O => None
          | S d => depth tokens d
          end
      | _ => depth tokens d
      end
  end.

(** A table that [t] has grown into: every entry of [t] is kept as it is,
    and an entry that [t] lacks is absent or uninitialised. *)
Definition grows (t t' : gmap ascii OpContract) : Prop :=
  forall c : ascii,
    match t !! c with
    | Some contract => t' !! c = Some contract
    | None => t' !! c = None \/ t' !! c = Some Uninitialised
    end.

(** A computation that, whatever its outcome, only lets the table grow. *)
Definition monotone {A} (m : M A) : Prop :=
  forall (t t' : gmap ascii OpContract) (r : outcome A),
    m t = (r, t') -> grows t t'.

(** A token whose symbol the table maps to a proper contract. *)
Definition supported (t : gmap ascii OpContract) (token : Token) : Prop :=
  exists c func p a,
    symbol token = Some c /\ t !! c = Some (Contract func p a).

(** An operand followed by operator-operand pairs, [a0 c1 a1 c2 a2 ...]:
    its tokens, and its value when the operators are applied from left to
    right. *)
Fixpoint chain_tokens (rest : list (ascii * double)) : list Token :=
  match rest with
  | [] => []
  | (c, v) :: rest => Operator c :: Number v :: chain_tokens rest
  end.

Fixpoint chain_value (t : gmap ascii OpContract) (acc : double)
    (rest : list (ascii * double)) : option double :=
  match rest with
  | [] => Some acc
  | (c, v) :: rest =>
      match t !! c with
      | Some (Contract func _ _) => chain_value t (func acc v) rest
      | _ => None
      end
  end.

(** A chain in which each operator, on arrival, meets the condition of
    lines 119-122 against the operator before it, whose precedence is
    [bound] for the first. *)
Fixpoint eager (t : gmap ascii OpContract) (bound : Z)
    (rest : list (ascii * double)) : Prop :=
  match rest with
  | [] => True
  | (c, _) :: rest =>
      exists func p a,
        t !! c = Some (Contract func p a)
        /\ (a && (p <=? bound)%Z) || (negb a && (p <? bound)%Z) = true
        /\ eager t p rest
  end.

(** * Properties *)

(** Two doubles told apart by a boolean test are different. Used with the
    IEEE comparison [PrimFloat.eqb] to separate concrete results. *)
Lemma differ (test : double -> bool) (a b : double) :
  test a = true -> test b = false -> a <> b.
Proof. intros Ha Hb Hab. subst b. congruence. Qed.

(** ** The tokeniser terminates *)

Section TokeniserTermination.

Import Stream.

Lemma take_digits_length (s : list ascii) :
  (length (snd (take_digits s)) <= length s)%nat.
Proof.
  induction s as [|c s IH]; simpl; [lia|].
  destruct (isdigit c); simpl; [|lia].
  destruct (take_digits s) as [ds rest]; simpl in *. lia.
Qed.

Lemma take_digits_digit (c : ascii) (s : list ascii) :
  isdigit c = true ->
  (length (snd (take_digits (c :: s))) <= length s)%nat.
Proof.
  intros Hc. simpl. rewrite Hc.
  pose proof (take_digits_length s) as H.
  destruct (take_digits s) as [ds rest]; simpl in *. lia.
Qed.

Lemma take_sign_length (s : list ascii) :
  (length (snd (take_sign s)) <= length s)%nat.
Proof.
  destruct s as [|c s]; simpl; [lia|].
  destruct (c =? "-")%char; simpl; [lia|].
  destruct (c =? "+")%char; simpl; lia.
Qed.

(** What follows the mantissa is never longer than what the mantissa
    scan left. *)
Lemma scan_field_length (s : list ascii) :
  (length (snd (scan_field s)) <= length (snd (take_digits (snd (take_sign s)))))%nat.
Proof.
  unfold scan_field.
  destruct (take_sign s) as [neg s1]; simpl.
  destruct (take_digits s1) as [ip s2]; simpl.
  assert (Hfrac : forall fp s3,
    (match s2 with
     | c :: rest => if (c =? ".")%char then take_digits rest else ([], s2)
     | [] => ([], s2)
     end) = (fp, s3) -> (length s3 <= length s2)%nat).
  { intros fp s3. destruct s2 as [|c rest]; [intros [= <- <-]; lia|].
    destruct (c =? ".")%char.
    - intros H. pose proof (take_digits_length rest) as Hl.
      rewrite H in Hl. simpl in *. lia.
    - intros [= <- <-]. lia. }
  destruct (match s2 with
            | c :: rest => if (c =? ".")%char then take_digits rest else ([], s2)
            | [] => ([], s2)
            end) as [fp s3] eqn:E3.
  specialize (Hfrac fp s3 eq_refl).
  destruct s3 as [|c rest]; simpl in *; [lia|].
  destruct (((c =? "e")%char || (c =? "E")%char)
            && match ip, fp with [], [] => false | _, _ => true end);
    simpl in *; [|lia].
  pose proof (take_sign_length rest) as Hs.
  destruct (take_sign rest) as [eneg r1]; simpl in *.
  pose proof (take_digits_length r1) as Hd.
  destruct (take_digits r1) as [ed r2]; simpl in *. lia.
Qed.

(** An extraction that starts at a sign or at a digit takes at least
    that character. *)
Lemma extract_double_shorter (s : istringstream) (c : ascii) (rest : list ascii) :
  buf s = c :: rest ->
  ((c =? "+")%char || (c =? "-")%char) || isdigit c = true ->
  (length (buf (snd (extract_double s))) <= length rest)%nat.
Proof.
  intros Hbuf Hc. unfold extract_double. rewrite Hbuf.
  pose proof (scan_field_length (c :: rest)) as Hlen.
  destruct (scan_field (c :: rest)) as [f after]; simpl in Hlen.
  assert (Hafter : (length after <= length rest)%nat).
  { etransitivity; [exact Hlen|].
    destruct (c =? "-")%char eqn:Em; [apply take_digits_length|].
    destruct (c =? "+")%char eqn:Ep; [apply take_digits_length|].
    simpl in Hc. apply take_digits_digit. exact Hc. }
  destruct (field_value f) as [[| | |]|]; simpl; exact Hafter.
Qed.

Lemma ignore1_shorter (s : istringstream) (c : ascii) (rest : list ascii) :
  buf s = c :: rest -> buf (ignore1 s) = rest.
Proof. unfold ignore1. intros ->. reflexivity. Qed.

(** A turn that goes round again has extracted at least one character. *)
Lemma tokenise_turn_shorter (s s' : istringstream) (tokens tokens' : list Token) :
  tokenise_turn s tokens = Next s' tokens' ->
  (length (buf s') < length (buf s))%nat.
Proof.
  unfold tokenise_turn, peek.
  destruct (buf s) as [|c rest] eqn:Hbuf; [discriminate|].
  pose proof (ignore1_shorter s c rest Hbuf) as Hig.
  destruct (c =? " ")%char; [intros [= <- _]; rewrite Hig; simpl; lia|].
  destruct (c =? "(")%char; [intros [= <- _]; rewrite Hig; simpl; lia|].
  destruct (c =? ")")%char; [intros [= <- _]; rewrite Hig; simpl; lia|].
  destruct (((c =? "+")%char || (c =? "-")%char) && sign_position tokens) eqn:Hsign.
  - pose proof (extract_double_shorter s c rest Hbuf) as Hex.
    destruct (extract_double s) as [v st]; simpl in Hex.
    destruct (failbit st); [discriminate|]. intros [= <- _].
    apply andb_prop in Hsign as [Hsign _].
    rewrite Hsign in Hex. specialize (Hex eq_refl). simpl. lia.
  - destruct (isdigit c) eqn:Hdig.
    + pose proof (extract_double_shorter s c rest Hbuf) as Hex.
      destruct (extract_double s) as [v st]; simpl in Hex.
      intros [= <- _]. rewrite Hdig, orb_true_r in Hex.
      specialize (Hex eq_refl). simpl. lia.
    + intros [= <- _]. rewrite Hig. simpl. lia.
Qed.

(** A turn on an empty buffer leaves the loop. *)
Lemma tokenise_turn_eof (s : istringstream) (tokens : list Token) :
  buf s = [] -> tokenise_turn s tokens = Break.
Proof. unfold tokenise_turn, peek. intros ->. reflexivity. Qed.

Lemma tokenise_loop_fuel (fuel : nat) :
  forall (s : istringstream) (tokens : list Token),
    (length (buf s) < fuel)%nat ->
    exists r, tokenise_loop fuel s tokens = Some r.
Proof.
  induction fuel as [|fuel IH]; intros s tokens Hlen; [lia|].
  simpl. destruct (good s); [|eauto].
  destruct (tokenise_turn s tokens) as [|s' tokens'|e] eqn:Hturn; [eauto| |eauto].
  apply IH. apply tokenise_turn_shorter in Hturn. lia.
Qed.

Lemma length_list_ascii_of_string (input : string) :
  length (list_ascii_of_string input) = String.length input.
Proof. induction input as [|c input IH]; simpl; congruence. Qed.

(** [tokenise] never runs out of fuel: its result is the loop's. *)
Lemma tokenise_total (input : string) :
  tokenise_loop (tokenise_fuel input) (open input) [] = Some (tokenise input).
Proof.
  unfold tokenise.
  destruct (tokenise_loop_fuel (tokenise_fuel input) (open input) []) as [r Hr].
  - unfold tokenise_fuel, open. simpl.
    rewrite length_list_ascii_of_string. lia.
  - rewrite Hr. reflexivity.
Qed.

End TokeniserTermination.

(** ** Guards, brackets and signs *)

(** The final loop is guarded: an operator popped there with fewer than two
    operands ends the process with Mismatched operands. *)
Lemma drain_guard (token : Token) (below : list Token) (output : list double)
    (t : gmap ascii OpContract) :
  type token = OPERATOR \/ type token = NUMBER ->
  (length output < 2)%nat ->
  drain (token :: below) output t = (Exit InsufficientOperands, t).
Proof.
  intros Hty Hlen. simpl.
  assert (Hb : TokenType_eqb (type token) LEFT_BRACKET
               || TokenType_eqb (type token) RIGHT_BRACKET = false)
    by (destruct Hty as [-> | ->]; reflexivity).
  rewrite Hb.
  destruct (Nat.ltb_spec (length output) 2) as [_|Hge]; [reflexivity|lia].
Qed.

(** A bracket popped by the final loop ends the process with Mismatched
    parenthesis, whatever lies below it. *)
Lemma drain_bracket (token : Token) (below : list Token) (output : list double)
    (t : gmap ascii OpContract) :
  is_bracket token ->
  drain (token :: below) output t = (Exit MismatchedParenthesis, t).
Proof. intros [Hty | Hty]; simpl; rewrite Hty; reflexivity. Qed.

(** With a bracket anywhere on the operator stack the final loop never
    reaches its [return]. *)
Lemma drain_with_bracket (operators : list Token) :
  Exists is_bracket operators ->
  forall (output : list double) (t : gmap ascii OpContract),
    is_return (fst (drain operators output t)) = false.
Proof.
  induction operators as [|token below IH]; intros Hex output t;
    [inversion Hex|].
  simpl.
  destruct (TokenType_eqb (type token) LEFT_BRACKET
            || TokenType_eqb (type token) RIGHT_BRACKET) eqn:Eb; [reflexivity|].
  destruct (length output <? 2)%nat; [reflexivity|].
  assert (Hbelow : Exists is_bracket below).
  { inversion Hex as [? ? [Hty | Hty]|]; subst; [| |assumption];
      rewrite Hty in Eb; discriminate. }
  unfold bind at 1.
  destruct (apply token output t) as [[output'| |] t']; simpl; auto.
Qed.

(** A right bracket met while no left bracket is on the operator stack
    never lets the scan go on: the loop of lines 144-157 either leaves
    defined behaviour, meets an unsupported operator, or empties the stack
    and reports the mismatch. *)
Lemma unwind_without_left_bracket (operators : list Token) :
  Forall (fun op => type op <> LEFT_BRACKET) operators ->
  forall (output : list double) (t : gmap ascii OpContract),
    is_return (fst (unwind operators output t)) = false.
Proof.
  induction 1 as [|op below Hop Hbelow IH]; intros output t; [reflexivity|].
  simpl. destruct (TokenType_eqb (type op) LEFT_BRACKET) eqn:E.
  - destruct (type op); try discriminate. congruence.
  - unfold bind at 1.
    destruct (apply op output t) as [[output'| |] t']; simpl; auto.
  Qed.

Lemma scan_right_bracket (output : list double) (operators : list Token)
    (t : gmap ascii OpContract) :
  scan_token RightBracket output operators t
  = match unwind operators output t with
    | (Return (operators', output'), t') => (Return (output', operators'), t')
    | (Exit e, t') => (Exit e, t')
    | (Undefined, t') => (Undefined, t')
    end.
Proof.
  unfold scan_token, bind. simpl.
  destruct (unwind operators output t) as [[[ops out]| |] t']; reflexivity.
Qed.

(** In front of a sign, the last token decides: a number makes the sign an
    operator, anything else (or nothing) makes it the start of a literal. *)
Lemma sign_position_spec (tokens : list Token) :
  sign_position tokens = true <->
  tokens = [] \/ exists t, last tokens = Some t /\ type t <> NUMBER.
Proof.
  unfold sign_position. split.
  - destruct (last tokens) as [t|] eqn:E.
    + intros H. right. exists t. split; [reflexivity|].
      destruct (type t); simpl in H; congruence.
    + intros _. left. apply last_None. exact E.
  - intros [-> | (t & -> & Ht)]; [reflexivity|].
    destruct (type t); simpl; congruence.
Qed.

Lemma sign_position_snoc (tokens : list Token) (t : Token) :
  sign_position (tokens ++ [t]) = negb (TokenType_eqb (type t) NUMBER).
Proof. unfold sign_position. rewrite last_snoc. reflexivity. Qed.

(** On a line of spaces every turn skips one and the last meets the end. *)
Lemma tokenise_loop_spaces (n : nat) :
  forall (fuel : nat) (tokens : list Token),
    (n < fuel)%nat ->
    tokenise_loop fuel (Stream.open (spaces n)) tokens = Some (Return tokens).
Proof.
  induction n as [|n IH]; intros [|fuel] tokens Hlt; try lia.
  - reflexivity.
  - simpl. apply IH. lia.
Qed.

Lemma tokenise_spaces (n : nat) : tokenise (spaces n) = Return [].
Proof.
  pose proof (tokenise_total (spaces n)) as Htot.
  rewrite tokenise_loop_spaces in Htot; [congruence|].
  unfold tokenise_fuel. clear Htot.
  induction n; simpl; lia.
Qed.

(** ** A run that returns leaves the table as it found it *)

Section TablePreservation.

Variable t0 : gmap ascii OpContract.

Lemma bind_return {A B} (m : M A) (k : A -> M B) (t t' : gmap ascii OpContract)
    (b : B) :
  bind m k t = (Return b, t') ->
  exists a t1, m t = (Return a, t1) /\ k a t1 = (Return b, t').
Proof.
  unfold bind. destruct (m t) as [[a| |] t1]; intros H; try discriminate.
  eauto.
Qed.

Lemma read_return {A} (member : option A) (t t' : gmap ascii OpContract) (a : A) :
  read member t = (Return a, t') -> member = Some a /\ t' = t.
Proof.
  unfold read, ret, undefined. destruct member; [|discriminate].
  intros [= Ha Ht]. subst. auto.
Qed.

Lemma index_return (c : ascii) (t t' : gmap ascii OpContract) (k : OpContract) :
  index c t = (Return k, t') ->
  (t !! c = Some k /\ t' = t)
  \/ (t !! c = None /\ k = Uninitialised /\ t' = <[c := Uninitialised]> t).
Proof.
  unfold index. destruct (t !! c) as [k'|]; intros [= <- <-]; auto.
Qed.

(** An operator that was applied was found in the table with a proper
    contract, and applying it did not touch the table. *)
Lemma apply_return (op : Token) (output out' : list double)
    (t t' : gmap ascii OpContract) :
  apply op output t = (Return out', t') ->
  t' = t
  /\ exists c func p a,
       symbol op = Some c /\ t !! c = Some (Contract func p a).
Proof.
  unfold apply, evaluate, find, bind, front, pop, read, ret, undefined, exit.
  destruct output as [|l [|r out]]; try discriminate.
  destruct (symbol op) as [c|]; try discriminate.
  destruct (t !! c) as [[func p a|]|] eqn:E; try discriminate.
  intros [= <- <-]. eauto 10.
Qed.

Lemma apply_not_poisoned (op : Token) (output out' : list double)
    (t t' : gmap ascii OpContract) :
  apply op output t = (Return out', t') -> t' = t /\ ~ poisoned t op.
Proof.
  intros H. apply apply_return in H as (-> & c & func & p & a & Hsym & Hc).
  split; [reflexivity|]. intros (_ & c' & Hsym' & Hc'). congruence.
Qed.

Lemma kept_tail (op : Token) (below : list Token) (t : gmap ascii OpContract) :
  ~ poisoned t op -> kept t0 (op :: below) t -> kept t0 below t.
Proof.
  intros Hop [-> | Hex]; [left; reflexivity|].
  right. inversion Hex; subst; [contradiction|assumption].
Qed.

Lemma kept_push (op : Token) (operators : list Token) (t : gmap ascii OpContract) :
  kept t0 operators t -> kept t0 (op :: operators) t.
Proof. intros [-> | Hex]; [left; reflexivity|right; constructor 2; exact Hex]. Qed.

(** The loop of an OPERATOR token, followed by the push of the token. *)
Lemma reduce_kept (token : Token) :
  type token = OPERATOR ->
  forall (operators : list Token) (output : list double)
         (t t' : gmap ascii OpContract) (ops' : list Token) (out' : list double),
    reduce token operators output t = (Return (ops', out'), t') ->
    kept t0 operators t -> kept t0 (token :: ops') t'.
Proof.
  intros Hty. induction operators as [|op2 below IH];
    intros output t t' ops' out' Hred Hkept.
  - injection Hred as <- <- <-. apply kept_push, Hkept.
  - simpl in Hred.
    apply bind_return in Hred as (sym1 & t1 & Hsym1 & Hred).
    apply read_return in Hsym1 as [Hsym1 ->].
    apply bind_return in Hred as (contract1 & t2 & Hidx1 & Hred).
    destruct (negb (TokenType_eqb (type op2) OPERATOR)).
    { injection Hred as <- <- <-.
      apply index_return in Hidx1 as [[_ ->] | (_ & _ & ->)].
      - apply kept_push, Hkept.
      - right. constructor 1. split; [exact Hty|].
        exists sym1. split; [exact Hsym1|]. apply lookup_insert_eq. }
    apply bind_return in Hred as (sym2 & t3 & Hsym2 & Hred).
    apply read_return in Hsym2 as [Hsym2 ->].
    apply bind_return in Hred as (contract2 & t4 & Hidx2 & Hred).
    apply bind_return in Hred as (go & t5 & Hgo & Hred).
    destruct contract1 as [f1 p1 a1|]; [|discriminate].
    destruct contract2 as [f2 p2 a2|]; [|discriminate].
    injection Hgo as <- <-.
    apply index_return in Hidx1 as [[_ ->] | (_ & [=] & _)].
    apply index_return in Hidx2 as [[Hc2 ->] | (_ & [=] & _)].
    destruct ((a1 && (p1 <=? p2)%Z) || (negb a1 && (p1 <? p2)%Z)).
    + apply bind_return in Hred as (out1 & t6 & Happ & Hred).
      apply apply_not_poisoned in Happ as [-> Hclean].
      eapply IH; [exact Hred|]. eapply kept_tail; eassumption.
    + injection Hred as <- <- <-. apply kept_push, Hkept.
Qed.

(** The loop of a RIGHT_BRACKET token. *)
Lemma unwind_kept (operators : list Token) :
  forall (output : list double) (t t' : gmap ascii OpContract)
         (ops' : list Token) (out' : list double),
    unwind operators output t = (Return (ops', out'), t') ->
    kept t0 operators t -> kept t0 ops' t'.
Proof.
  induction operators as [|op below IH]; intros output t t' ops' out' Hun Hkept;
    [discriminate|].
  simpl in Hun. destruct (TokenType_eqb (type op) LEFT_BRACKET) eqn:Eop.
  - injection Hun as <- <- <-. eapply kept_tail; [|exact Hkept].
    intros [Hty _]. rewrite Hty in Eop. discriminate.
  - apply bind_return in Hun as (out1 & t1 & Happ & Hun).
    apply apply_not_poisoned in Happ as [-> Hclean].
    eapply IH; [exact Hun|]. eapply kept_tail; eassumption.
Qed.

Lemma scan_token_kept (token : Token) (output out' : list double)
    (operators ops' : list Token) (t t' : gmap ascii OpContract) :
  scan_token token output operators t = (Return (out', ops'), t') ->
  kept t0 operators t -> kept t0 ops' t'.
Proof.
  unfold scan_token. destruct (type token) eqn:Hty; intros Hscan Hkept.
  - injection Hscan as <- <- <-. apply kept_push, Hkept.
  - apply bind_return in Hscan as ([ops1 out1] & t1 & Hun & Hscan).
    injection Hscan as <- <- <-. eapply unwind_kept; eassumption.
  - apply bind_return in Hscan as (v & t1 & Hv & Hscan).
    apply read_return in Hv as [_ ->]. injection Hscan as <- <- <-. exact Hkept.
  - apply bind_return in Hscan as ([ops1 out1] & t1 & Hred & Hscan).
    injection Hscan as <- <- <-. eapply reduce_kept; eassumption.
Qed.

Lemma scan_kept (tokens : list Token) :
  forall (output out' : list double) (operators ops' : list Token)
         (t t' : gmap ascii OpContract),
    scan tokens output operators t = (Return (out', ops'), t') ->
    kept t0 operators t -> kept t0 ops' t'.
Proof.
  induction tokens as [|token tokens IH];
    intros output out' operators ops' t t' Hscan Hkept.
  - injection Hscan as <- <- <-. exact Hkept.
  - simpl in Hscan.
    apply bind_return in Hscan as ([out1 ops1] & t1 & Htok & Hscan).
    eapply IH; [exact Hscan|]. eapply scan_token_kept; eassumption.
Qed.

(** The final loop returns only after applying every token of the stack. *)
Lemma drain_return (operators : list Token) :
  forall (output : list double) (t t' : gmap ascii OpContract) (v : double),
    drain operators output t = (Return v, t') ->
    t' = t /\ Forall (fun op => ~ poisoned t op) operators.
Proof.
  induction operators as [|token below IH]; intros output t t' v Hdrain.
  - destruct output; [discriminate|]. injection Hdrain as <- <-. auto.
  - simpl in Hdrain.
    destruct (TokenType_eqb (type token) LEFT_BRACKET
              || TokenType_eqb (type token) RIGHT_BRACKET); [discriminate|].
    destruct (length output <? 2)%nat; [discriminate|].
    apply bind_return in Hdrain as (out1 & t1 & Happ & Hdrain).
    apply apply_not_poisoned in Happ as [-> Hclean].
    apply IH in Hdrain as [-> Hall]. auto.
Qed.

End TablePreservation.

(** Whatever the table and the tokens, an evaluation that returns a value
    returns the table it was given. *)
Lemma expression_keeps_table (tokens : list Token) (t t' : gmap ascii OpContract)
    (v : double) :
  expression tokens t = (Return v, t') -> t' = t.
Proof.
  unfold expression. intros H.
  apply bind_return in H as ([output operators] & t1 & Hscan & Hdrain).
  apply drain_return in Hdrain as [-> Hclean].
  apply (scan_kept t) in Hscan as [Heq | Hex]; [exact Heq| |left; reflexivity].
  apply Exists_exists in Hex as (op & Hin & Hop).
  rewrite Forall_forall in Hclean. destruct (Hclean op Hin Hop).
Qed.

Lemma calculate_keeps_table (input : string) (t t' : gmap ascii OpContract)
    (v : double) :
  calculate input t = (Return v, t') -> t' = t.
Proof.
  unfold calculate. intros H.
  apply bind_return in H as (tokens & t1 & Htok & Hexp).
  injection Htok as _ <-. eapply expression_keeps_table, Hexp.
Qed.

(** X15. When the read loop reaches the end of its input, the table is
    the one the process started with: no line that printed a value has
    changed it. *)
Lemma main_keeps_table (stdin : list string) :
  forall (t t' : gmap ascii OpContract) (printed : list double),
    main stdin t = (printed, (Return tt, t')) -> t' = t.
Proof.
  induction stdin as [|input rest IH]; intros t t' printed Hmain; simpl in Hmain.
  - injection Hmain as _ <-. reflexivity.
  - destruct (String.length input =? 0)%nat; [eapply IH, Hmain|].
    destruct (calculate input t) as [[v| |] t1] eqn:Hcalc; try discriminate.
    apply calculate_keeps_table in Hcalc as ->.
    destruct (main rest t) as [printed' [r t2]] eqn:Hrest.
    injection Hmain as _ -> ->. eapply IH, Hrest.
Qed.

(** ** The model on inputs the program gets right *)

(** With at most two operands pending the queue and a stack agree: left
    associativity, a bracketed sub-expression in front, and signed
    literals evaluate as an infix calculator should. *)
Lemma agreeing_examples (pow : double -> double -> double) :
  fst (calculate "8-4-2" (opContracts pow)) = Return 2
  /\ fst (calculate "(2+3)*4" (opContracts pow)) = Return 20
  /\ fst (calculate "-3+5" (opContracts pow)) = Return 2
  /\ fst (calculate "3+-2" (opContracts pow)) = Return 1
  /\ fst (calculate "1.5e1/4" (opContracts pow)) = Return 3.75.
Proof. repeat split; vm_compute; reflexivity. Qed.

(** ** Precedence, associativity and brackets *)

(** C1. Evaluating the token sequence of the input 2+3*4 returns 14.
    The operands are kept in a first-in first-out queue, so the pending
    [*] is applied to the two OLDEST operands, 2 and 3, and [+] then
    receives 4 and 6: the program prints 10. *)
Theorem precedence_2_plus_3_times_4 (pow : double -> double -> double) :
  tokenise "2+3*4"
  = Return [Number 2; Operator "+"; Number 3; Operator "*"; Number 4]
  /\ expression [Number 2; Operator "+"; Number 3; Operator "*"; Number 4]
       (opContracts pow)
     = (Return 10, opContracts pow)
  /\ calculate "2+3*4" (opContracts pow) = (Return 10, opContracts pow)
  /\ (10 : double) <> 14.
Proof.
  repeat split; try (vm_compute; reflexivity).
  apply (differ (fun v => PrimFloat.eqb v 10)); reflexivity.
Qed.

(** C2. For every well-formed expression over + - * / with fully
    parenthesized sub-expressions the result is the expected value;
    (1+2)*3 evaluates to 9 and 2-3*4 evaluates to -10.
    (1+2)*3 does give 9, but 2-3*4 gives -2, and the fully parenthesized
    ((1+2)*(3+4)) gives 24 where its reference value is 21. *)
Theorem parenthesized_arithmetic (pow : double -> double -> double) :
  calculate "(1+2)*3" (opContracts pow) = (Return 9, opContracts pow)
  /\ calculate "2-3*4" (opContracts pow) = (Return (-2), opContracts pow)
  /\ (-2 : double) <> -10
  /\ (let e := Bin "*" (Bin "+" (Lit 1) (Lit 2)) (Bin "+" (Lit 3) (Lit 4)) in
      tokenise "((1+2)*(3+4))" = Return (infix e)
      /\ reference (opContracts pow) e = Some 21
      /\ expression (infix e) (opContracts pow) = (Return 24, opContracts pow)
      /\ (24 : double) <> 21).
Proof.
  repeat split; try (vm_compute; reflexivity).
  - apply (differ (fun v => PrimFloat.eqb v (-2))); reflexivity.
  - apply (differ (fun v => PrimFloat.eqb v 24)); reflexivity.
Qed.

(** C3. Evaluating 2^3^2 returns 512: the two ^ stack and are applied
    right to left, as 2^(3^2).
    The two [^] do stack (no reduction on the tie), but the final loop
    applies the upper one to the FRONT of the queue, pow(2,3) = 8, and the
    lower one to the remaining 2 and that 8: the result is pow(2,8) = 256. *)
Theorem right_associativity_2_3_2 (pow : double -> double -> double) :
  pow 2 3 = 8 -> pow 2 8 = 256 ->
  tokenise "2^3^2"
  = Return [Number 2; Operator "^"; Number 3; Operator "^"; Number 2]
  /\ scan [Number 2; Operator "^"; Number 3; Operator "^"; Number 2] [] []
       (opContracts pow)
     = (Return ([2; 3; 2], [Operator "^"; Operator "^"]), opContracts pow)
  /\ calculate "2^3^2" (opContracts pow) = (Return 256, opContracts pow)
  /\ (256 : double) <> 512.
Proof.
  intros H23 H28. repeat split; try (vm_compute; reflexivity).
  - transitivity (Return (pow 2 (pow 2 3)), opContracts pow);
      [vm_compute; reflexivity|].
    rewrite H23, H28. reflexivity.
  - apply (differ (fun v => PrimFloat.eqb v 256)); reflexivity.
Qed.

Lemma right_associativity_2_3_2_witness :
  Pow.repeated 2 3 = 8 /\ Pow.repeated 2 8 = 256
  /\ calculate "2^3^2" (opContracts Pow.repeated)
     = (Return 256, opContracts Pow.repeated).
Proof.
  split; [reflexivity|]. split; [reflexivity|].
  apply (right_associativity_2_3_2 Pow.repeated); reflexivity.
Defined.

(** ** Operand checks *)

(** C4. Whenever an operator is popped and applied with fewer than two
    operands the evaluator fails with InsufficientOperands; every pop of
    the operand queue is guarded or performed on at least two values.
    Only the final loop checks the size: 1* ends with Mismatched
    operands. The reduction while scanning an operator (input 1*/2) and the
    reduction at a right bracket (input 1* between brackets) read the
    front of a queue that the first pop has emptied. *)
Theorem operand_checks (pow : double -> double -> double) :
  calculate "1*" (opContracts pow) = (Exit InsufficientOperands, opContracts pow)
  /\ tokenise "1*/2" = Return [Number 1; Operator "*"; Operator "/"; Number 2]
  /\ calculate "1*/2" (opContracts pow) = (Undefined, opContracts pow)
  /\ tokenise "(1*)"
     = Return [LeftBracket; Number 1; Operator "*"; RightBracket]
  /\ calculate "(1*)" (opContracts pow) = (Undefined, opContracts pow).
Proof. repeat split; vm_compute; reflexivity. Qed.

(** ** The operator contract table *)

(** C5. The table is built once with exactly the five contracts and no
    tokenization or evaluation step ever adds to it, removes from it or
    changes it.
    The table starts with exactly the five keys, but [expression] looks
    contracts up with [operator[]]: scanning the unknown operator of (%
    inserts a sixth, uninitialised, entry before the process ends. *)
Theorem table_lifecycle (pow : double -> double -> double) :
  dom (opContracts pow)
  = ({[ "+"; "-"; "*"; "/"; "^" ]} : gset ascii)%char
  /\ opContracts pow !! "%"%char = None
  /\ tokenise "(%" = Return [LeftBracket; Operator "%"]
  /\ calculate "(%" (opContracts pow)
     = (Exit InsufficientOperands,
        <["%"%char := Uninitialised]> (opContracts pow))
  /\ <["%"%char := Uninitialised]> (opContracts pow) <> opContracts pow.
Proof.
  split; [|repeat split; try (vm_compute; reflexivity)].
  - unfold opContracts. rewrite !dom_insert_L, dom_empty_L. set_solver.
  - intros Heq.
    assert (H : (<["%"%char := Uninitialised]> (opContracts pow)) !! "%"%char
                = opContracts pow !! "%"%char) by (rewrite Heq; reflexivity).
    rewrite lookup_insert_eq in H. vm_compute in H. discriminate.
Qed.

(** C6. An Operator token whose symbol is not a key of the table makes
    the evaluator fail with UnsupportedOperator at the moment it would be
    applied; 3%2 fails with UnsupportedOperator('%').
    3%2 does. In (1%2) the [%] is scanned while a bracket is on the
    stack, so line 113 has already inserted it into the table when
    [evaluate] looks it up: the lookup succeeds and the call goes through
    a function pointer that was never set. In 1+2%3 the comparison of
    lines 119-122 reads the precedence of that same uninitialised entry. *)
Theorem unsupported_operator (pow : double -> double -> double) :
  calculate "3%2" (opContracts pow)
  = (Exit (UnsupportedOperator "%"), opContracts pow)
  /\ tokenise "(1%2)"
     = Return [LeftBracket; Number 1; Operator "%"; Number 2; RightBracket]
  /\ calculate "(1%2)" (opContracts pow)
     = (Undefined, <["%"%char := Uninitialised]> (opContracts pow))
  /\ calculate "1+2%3" (opContracts pow)
     = (Undefined, <["%"%char := Uninitialised]> (opContracts pow)).
Proof. repeat split; vm_compute; reflexivity. Qed.

(** C7. (1+2 and 1+2) both fail with MismatchedParenthesis: a right
    bracket that empties the operator stack before finding a left bracket
    fails, and any bracket remaining on the operator stack after the scan
    fails. *)
Theorem mismatched_parenthesis (pow : double -> double -> double) :
  calculate "(1+2" (opContracts pow)
  = (Exit MismatchedParenthesis, opContracts pow)
  /\ calculate "1+2)" (opContracts pow)
     = (Exit MismatchedParenthesis, opContracts pow)
  /\ (forall output t,
        scan_token RightBracket output [] t = (Exit MismatchedParenthesis, t))
  /\ (forall operators output t,
        Forall (fun op => type op <> LEFT_BRACKET) operators ->
        is_return (fst (scan_token RightBracket output operators t)) = false)
  /\ (forall token below output t,
        is_bracket token ->
        drain (token :: below) output t = (Exit MismatchedParenthesis, t))
  /\ (forall operators output t,
        Exists is_bracket operators ->
        is_return (fst (drain operators output t)) = false).
Proof.
  repeat split; try (vm_compute; reflexivity).
  - intros operators output t Hall. rewrite scan_right_bracket.
    pose proof (unwind_without_left_bracket operators Hall output t) as Hun.
    destruct (unwind operators output t) as [[[ops out]| |] t'];
      [discriminate|reflexivity|reflexivity].
  - intros token below output t. apply drain_bracket.
  - intros operators output t Hex. apply drain_with_bracket, Hex.
Qed.

Lemma mismatched_parenthesis_witness :
  is_return (fst (scan_token RightBracket [1; 2] [Operator "+"]
                    (opContracts Pow.repeated))) = false
  /\ drain [LeftBracket] [3] (opContracts Pow.repeated)
     = (Exit MismatchedParenthesis, opContracts Pow.repeated)
  /\ is_return (fst (drain [Operator "+"; LeftBracket] [1; 2]
                       (opContracts Pow.repeated))) = false.
Proof.
  destruct (mismatched_parenthesis Pow.repeated)
    as (_ & _ & _ & Hright & Hpop & Hleft).
  split; [|split].
  - apply Hright. repeat constructor; discriminate.
  - apply Hpop. left. reflexivity.
  - apply Hleft. constructor 2. constructor 1. left. reflexivity.
Defined.

(** ** The sign rule of the tokeniser *)

(** C8. A + or - starts a signed number literal precisely when it is the
    first token of the line or the preceding token is not a Number; a
    literal is then parsed from that character, and tokenization fails
    with InvalidNumber when no valid literal follows; 3+-2 tokenizes as 3,
    operator +, number -2. *)
Theorem sign_starts_number (stream : istringstream) (tokens : list Token)
    (c : ascii) (rest : list ascii) :
  buf stream = c :: rest ->
  c = "+"%char \/ c = "-"%char ->
  (sign_position tokens = true
   <-> tokens = [] \/ exists t, last tokens = Some t /\ type t <> NUMBER)
  /\ (sign_position tokens = true ->
      tokenise_turn stream tokens
      = (let '(v, after) := Stream.extract_double stream in
         if failbit after then Stop InvalidNumber
         else Next after (tokens ++ [Number v]))
      /\ (Stream.field_value (fst (Stream.scan_field (c :: rest))) = None ->
          tokenise_turn stream tokens = Stop InvalidNumber))
  /\ (sign_position tokens = false ->
      tokenise_turn stream tokens
      = Next (Stream.ignore1 stream) (tokens ++ [Operator c]))
  /\ tokenise "3+-2" = Return [Number 3; Operator "+"; Number (-2)].
Proof.
  intros Hbuf Hc.
  assert (Hpeek : Stream.peek stream = (Some c, stream))
    by (unfold Stream.peek; rewrite Hbuf; reflexivity).
  assert (Hturn : tokenise_turn stream tokens
                  = if sign_position tokens
                    then (let '(v, after) := Stream.extract_double stream in
                          if failbit after then Stop InvalidNumber
                          else Next after (tokens ++ [Number v]))
                    else Next (Stream.ignore1 stream) (tokens ++ [Operator c])).
  { unfold tokenise_turn. rewrite Hpeek.
    destruct Hc as [-> | ->]; simpl; destruct (sign_position tokens); reflexivity. }
  split; [apply sign_position_spec|]. split; [|split].
  - intros Hpos. rewrite Hturn, Hpos. split; [reflexivity|].
    intros Hnone. unfold Stream.extract_double. rewrite Hbuf.
    destruct (Stream.scan_field (c :: rest)) as [f after]; simpl in Hnone.
    rewrite Hnone. reflexivity.
  - intros Hpos. rewrite Hturn, Hpos. reflexivity.
  - vm_compute. reflexivity.
Qed.

Lemma sign_starts_number_witness :
  tokenise_turn (Stream.open "-2") [Number 3; Operator "+"]
  = Next (mkStream [] true false) [Number 3; Operator "+"; Number (-2)].
Proof.
  destruct (sign_starts_number (Stream.open "-2") [Number 3; Operator "+"]
              "-"%char ["2"%char] eq_refl (or_intror eq_refl))
    as (_ & Hnumber & _).
  destruct (Hnumber eq_refl) as [-> _]. reflexivity.
Defined.

(** C9. For a non-empty line of spaces the tokenizer returns an empty
    token sequence and the evaluator then reads the front of an empty
    operand queue: no result and no error kind is produced. Every line
    of one or more spaces does so, and the read loop does not skip it. *)
Theorem blank_line (pow : double -> double -> double) (n : nat) :
  let line := spaces (S n) in
  String.length line <> O
  /\ tokenise line = Return []
  /\ expression [] (opContracts pow) = (Undefined, opContracts pow)
  /\ calculate line (opContracts pow) = (Undefined, opContracts pow)
  /\ main [line] (opContracts pow) = ([], (Undefined, opContracts pow))
  /\ main [""%string] (opContracts pow) = ([], (Return tt, opContracts pow)).
Proof.
  intros line.
  assert (Hcalc : calculate line (opContracts pow) = (Undefined, opContracts pow)).
  { unfold calculate, bind, lift. subst line. rewrite tokenise_spaces.
    reflexivity. }
  repeat split; try reflexivity.
  - discriminate.
  - apply tokenise_spaces.
  - exact Hcalc.
  - change (main [line] (opContracts pow))
      with (match calculate line (opContracts pow) with
            | (Return v, t') => ([v], (Return tt, t'))
            | (Exit e, t') => ([], (Exit e, t'))
            | (Undefined, t') => ([], (Undefined, t'))
            end).
    rewrite Hcalc. reflexivity.
Qed.

(** C10. A + or - right after a RightBracket is taken as the start of a
    signed literal, so (1+2)-3 tokenizes as the bracketed sum followed by
    the literal -3 with no operator between them, and the evaluator
    returns 3, the front of the operand queue, not 0 and not an error. *)
Theorem sign_after_right_bracket (pow : double -> double -> double) :
  (forall tokens, sign_position (tokens ++ [RightBracket]) = true)
  /\ tokenise "(1+2)-3"
     = Return [LeftBracket; Number 1; Operator "+"; Number 2; RightBracket;
               Number (-3)]
  /\ scan [LeftBracket; Number 1; Operator "+"; Number 2; RightBracket;
           Number (-3)] [] [] (opContracts pow)
     = (Return ([3; -3], []), opContracts pow)
  /\ calculate "(1+2)-3" (opContracts pow) = (Return 3, opContracts pow)
  /\ (3 : double) <> 0.
Proof.
  repeat split; try (vm_compute; reflexivity).
  - intros tokens. rewrite sign_position_snoc. reflexivity.
  - apply (differ (fun v => PrimFloat.eqb v 3)); reflexivity.
Qed.

(** * Further properties of the tokeniser *)

Section TokeniserInvariants.

(** What a turn that goes round again has done to the token list. *)
Lemma tokenise_turn_next (s s' : istringstream) (tokens tokens' : list Token) :
  tokenise_turn s tokens = Next s' tokens' ->
  tokens' = tokens
  \/ exists tok,
       tokens' = tokens ++ [tok] /\ shaped tok
       /\ (forall c, tok = Operator c -> c = "+"%char \/ c = "-"%char ->
           sign_position tokens = false).
Proof.
  unfold tokenise_turn, Stream.peek.
  destruct (buf s) as [|c rest]; [discriminate|].
  destruct (c =? " ")%char eqn:Esp; [intros [= _ <-]; left; reflexivity|].
  destruct (c =? "(")%char eqn:Elb.
  { intros [= _ <-]. right. exists LeftBracket. unfold shaped.
    split; [reflexivity|]. split; [auto|]. discriminate. }
  destruct (c =? ")")%char eqn:Erb.
  { intros [= _ <-]. right. exists RightBracket. unfold shaped.
    split; [reflexivity|]. split; [auto|]. discriminate. }
  destruct (((c =? "+")%char || (c =? "-")%char) && sign_position tokens)
    eqn:Esign.
  { destruct (Stream.extract_double s) as [v st].
    destruct (failbit st); [discriminate|]. intros [= _ <-].
    right. exists (Number v). unfold shaped.
    split; [reflexivity|]. split; [eauto|]. discriminate. }
  destruct (Stream.isdigit c) eqn:Edig.
  { destruct (Stream.extract_double s) as [v st]. intros [= _ <-].
    right. exists (Number v). unfold shaped.
    split; [reflexivity|]. split; [eauto|]. discriminate. }
  intros [= _ <-]. right. exists (Operator c).
  apply Ascii.eqb_neq in Esp, Elb, Erb.
  split; [reflexivity|]. split.
  - unfold shaped. right. right. right. exists c. auto.
  - intros c' [= <-] Hc.
    assert (Hor : ((c =? "+")%char || (c =? "-")%char) = true)
      by (destruct Hc as [-> | ->]; reflexivity).
    rewrite Hor in Esign. exact Esign.
Qed.


(** A property of stream and tokens that every turn keeps holds of the
    tokens the loop returns. *)
Lemma tokenise_loop_invariant (P : istringstream -> list Token -> Prop) :
  (forall s tokens s' tokens',
     P s tokens -> tokenise_turn s tokens = Next s' tokens' -> P s' tokens') ->
  forall (fuel : nat) (s : istringstream) (tokens result : list Token),
    P s tokens ->
    tokenise_loop fuel s tokens = Some (Return result) ->
    exists s', P s' result.
Proof.
  intros Hturn. induction fuel as [|fuel IH]; intros s tokens result HP; simpl.
  - destruct (Stream.good s); [discriminate|]. intros [= <-]. eauto.
  - destruct (Stream.good s); [|intros [= <-]; eauto].
    destruct (tokenise_turn s tokens) as [|s' tokens'|e] eqn:E.
    + intros [= <-]. eauto.
    + apply IH. eapply Hturn; eassumption.
    + discriminate.
Qed.

Lemma tokenise_loop_more_fuel (fuel : nat) :
  forall (s : istringstream) (tokens : list Token) (r : outcome (list Token))
         (fuel' : nat),
    tokenise_loop fuel s tokens = Some r ->
    (fuel <= fuel')%nat ->
    tokenise_loop fuel' s tokens = Some r.
Proof.
  induction fuel as [|fuel IH]; intros s tokens r fuel' Hrun Hle.
  - simpl in Hrun. destruct (Stream.good s) eqn:Hgood; [discriminate|].
    destruct fuel'; simpl; rewrite Hgood; exact Hrun.
  - destruct fuel' as [|fuel']; [lia|]. simpl in *.
    destruct (Stream.good s); [|exact Hrun].
    destruct (tokenise_turn s tokens); try exact Hrun.
    apply IH; [exact Hrun|lia].
Qed.

End TokeniserInvariants.

(** X1. The loop of [tokenise] ends within one turn more than the line
    has characters: with any larger supply of turns it gives the very
    result of [tokenise]. *)
Theorem tokenise_fuel_irrelevant (input : string) (fuel : nat) :
  (String.length input < fuel)%nat ->
  tokenise_loop fuel (Stream.open input) [] = Some (tokenise input).
Proof.
  intros Hlt. eapply tokenise_loop_more_fuel; [apply tokenise_total|].
  unfold tokenise_fuel. lia.
Qed.

Lemma tokenise_fuel_irrelevant_witness :
  tokenise_loop 40 (Stream.open "3+-2") []
  = Some (Return [Number 3; Operator "+"; Number (-2)]).
Proof.
  rewrite (tokenise_fuel_irrelevant "3+-2" 40); [reflexivity|simpl; lia].
Defined.


(** X3. Every token [tokenise] returns has one of four shapes: a left
    bracket, a right bracket, a number with its value, or an operator with
    its symbol, and that symbol is no space, no bracket and no digit. *)
Theorem tokenise_shaped (input : string) (tokens : list Token) :
  tokenise input = Return tokens -> Forall shaped tokens.
Proof.
  intros Htok. pose proof (tokenise_total input) as Htot. rewrite Htok in Htot.
  assert (Hstep : forall (s : istringstream) (toks : list Token)
                         (s' : istringstream) (toks' : list Token),
             Forall shaped toks -> tokenise_turn s toks = Next s' toks' ->
             Forall shaped toks').
  { intros s toks s' toks' Hall Hturn.
    apply tokenise_turn_next in Hturn as [-> | (tok & -> & Htok' & _)];
      [exact Hall|].
    apply Forall_app. split; [exact Hall|].
    constructor; [exact Htok'|constructor]. }
  destruct (tokenise_loop_invariant (fun _ toks => Forall shaped toks) Hstep
              _ _ _ _ (List.Forall_nil shaped) Htot) as [_ H].
  exact H.
Qed.

Lemma tokenise_shaped_witness :
  Forall shaped [Number 3; Operator "+"; Number (-2)].
Proof. apply (tokenise_shaped "3+-2"). vm_compute. reflexivity. Defined.

(** X4. In the token list of a line an operator [+] or [-] always stands
    right after a number: a sign in any other place has been read as the
    start of a literal. *)
Theorem tokenise_sign_follows_number (input : string) (tokens : list Token) :
  tokenise input = Return tokens -> sign_follows_number tokens.
Proof.
  intros Htok. pose proof (tokenise_total input) as Htot. rewrite Htok in Htot.
  assert (Hstep : forall (s : istringstream) (toks : list Token)
                         (s' : istringstream) (toks' : list Token),
             sign_follows_number toks -> tokenise_turn s toks = Next s' toks' ->
             sign_follows_number toks').
  { intros s toks s' toks' Hinv Hturn.
    apply tokenise_turn_next in Hturn as [-> | (tok & -> & _ & Hsign)];
      [exact Hinv|].
    intros i c Hi Hc. apply lookup_app_Some in Hi as [Hi | [Hlen Hi]].
    - destruct (Hinv i c Hi Hc) as (j & t & -> & Hj & Hty).
      exists j, t. split; [reflexivity|]. split; [|exact Hty].
      apply lookup_app_l_Some. exact Hj.
    - destruct (i - length toks)%nat eqn:Ei; [|destruct n; discriminate].
      injection Hi as ->. specialize (Hsign c eq_refl Hc).
      unfold sign_position in Hsign. rewrite last_lookup in Hsign.
      destruct (toks !! pred (length toks)) as [t|] eqn:Elast; [|discriminate].
      assert (Hpos : (0 < length toks)%nat).
      { apply lookup_lt_Some in Elast. lia. }
      exists (pred (length toks)), t. split; [lia|]. split.
      + apply lookup_app_l_Some. exact Elast.
      + destruct (type t); try discriminate. reflexivity. }
  assert (Hnil : sign_follows_number []) by (intros i c Hi; discriminate).
  destruct (tokenise_loop_invariant (fun _ toks => sign_follows_number toks)
              Hstep _ _ _ _ Hnil Htot) as [_ H].
  exact H.
Qed.

Lemma tokenise_sign_follows_number_witness :
  sign_follows_number [Number 3; Operator "-"; Number (-3)].
Proof.
  apply (tokenise_sign_follows_number "3--3"). vm_compute. reflexivity.
Defined.

(** X5. Spaces in front of a line change nothing: the line tokenises as
    it does without them. *)
Theorem tokenise_leading_spaces (n : nat) (input : string) :
  tokenise (String.append (spaces n) input) = tokenise input.
Proof.
  induction n as [|n IH]; [reflexivity|]. rewrite <- IH.
  pose proof (tokenise_total (String " " (String.append (spaces n) input)))
    as Hlong.
  pose proof (tokenise_total (String.append (spaces n) input)) as Hshort.
  change (String.append (spaces (S n)) input)
    with (String " " (String.append (spaces n) input)).
  change (tokenise_loop
            (tokenise_fuel (String " " (String.append (spaces n) input)))
            (Stream.open (String " " (String.append (spaces n) input))) [])
    with (tokenise_loop (tokenise_fuel (String.append (spaces n) input))
            (Stream.open (String.append (spaces n) input)) []) in Hlong.
  congruence.
Qed.

(** X6. A line never yields more tokens than it has characters. *)
Theorem tokenise_length (input : string) (tokens : list Token) :
  tokenise input = Return tokens ->
  (length tokens <= String.length input)%nat.
Proof.
  intros Htok. pose proof (tokenise_total input) as Htot. rewrite Htok in Htot.
  set (P := fun (s : istringstream) (toks : list Token) =>
              (length toks + length (buf s) <= String.length input)%nat).
  assert (Hstep : forall (s : istringstream) (toks : list Token)
                         (s' : istringstream) (toks' : list Token),
             P s toks -> tokenise_turn s toks = Next s' toks' -> P s' toks').
  { unfold P. intros s toks s' toks' Hinv Hturn.
    pose proof (tokenise_turn_shorter _ _ _ _ Hturn) as Hshort.
    apply tokenise_turn_next in Hturn as [-> | (tok & -> & _)]; [lia|].
    rewrite length_app. simpl. lia. }
  assert (Hstart : P (Stream.open input) []).
  { unfold P, Stream.open. simpl. rewrite length_list_ascii_of_string. lia. }
  destruct (tokenise_loop_invariant P Hstep _ _ _ _ Hstart Htot) as [s' H].
  unfold P in H. lia.
Qed.

Lemma tokenise_length_witness :
  (length [LeftBracket; Number 1; Operator "+"; Number 2; RightBracket;
           Number (-3)] <= String.length "(1+2)-3")%nat.
Proof. apply (tokenise_length "(1+2)-3"). vm_compute. reflexivity. Defined.

(** * Further properties of the evaluator *)

(** X7. On the table the program starts with, [evaluate] applies the
    function of each of the five symbols, and for every other character
    it ends the process with the unsupported operator diagnostic; the
    table is left as it was. *)
Theorem evaluate_initial_table (pow : double -> double -> double)
    (left : double) (op : ascii) (right : double) :
  evaluate left op right (opContracts pow)
  = ((if (op =? "+")%char then Return (left + right)
      else if (op =? "-")%char then Return (left - right)
      else if (op =? "*")%char then Return (left * right)
      else if (op =? "/")%char then Return (left / right)
      else if (op =? "^")%char then Return (pow left right)
      else Exit (UnsupportedOperator op)),
     opContracts pow).
Proof.
  unfold evaluate, bind, find, opContracts.
  destruct (Ascii.eqb_spec op "+") as [-> | Hplus];
    [rewrite lookup_insert_eq; reflexivity|].
  rewrite lookup_insert_ne by congruence.
  destruct (Ascii.eqb_spec op "-") as [-> | Hminus];
    [rewrite lookup_insert_eq; reflexivity|].
  rewrite lookup_insert_ne by congruence.
  destruct (Ascii.eqb_spec op "*") as [-> | Htimes];
    [rewrite lookup_insert_eq; reflexivity|].
  rewrite lookup_insert_ne by congruence.
  destruct (Ascii.eqb_spec op "/") as [-> | Hdiv];
    [rewrite lookup_insert_eq; reflexivity|].
  rewrite lookup_insert_ne by congruence.
  destruct (Ascii.eqb_spec op "^") as [-> | Hpow];
    [rewrite lookup_insert_eq; reflexivity|].
  rewrite lookup_insert_ne by congruence.
  rewrite lookup_empty. reflexivity.
Qed.

(** X8. A number, an operator and a number: the result is the operator's
    function applied to the two numbers in their order when the table has
    a contract for the symbol, the unsupported operator diagnostic when it
    has no entry, and undefined when the entry is uninitialised. The table
    is not touched. *)
Theorem expression_binary (t : gmap ascii OpContract) (a b : double) (c : ascii) :
  expression [Number a; Operator c; Number b] t
  = (match t !! c with
     | Some (Contract func _ _) => Return (func a b)
     | Some Uninitialised => Undefined
     | None => Exit (UnsupportedOperator c)
     end, t).
Proof.
  unfold expression, scan, scan_token, reduce, drain, apply, evaluate, find.
  unfold front, pop, read, ret, undefined, exit, bind. simpl.
  destruct (t !! c) as [[func p l|]|]; reflexivity.
Qed.

Lemma scan_numbers (vs : list double) :
  forall (output : list double) (operators : list Token)
         (t : gmap ascii OpContract),
    scan (map Number vs) output operators t
    = (Return (output ++ vs, operators), t).
Proof.
  induction vs as [|v vs IH]; intros output operators t; simpl.
  - rewrite app_nil_r. reflexivity.
  - unfold bind. simpl. rewrite IH, <- app_assoc. reflexivity.
Qed.

(** X9. A sequence of numbers with no operator between them is accepted,
    and its value is the first of them: the others stay in the queue
    unused. *)
Theorem expression_numbers_only (t : gmap ascii OpContract) (v : double)
    (vs : list double) :
  expression (map Number (v :: vs)) t = (Return v, t).
Proof.
  unfold expression, bind. rewrite scan_numbers. reflexivity.
Qed.

(** ** Chains that reduce eagerly *)

Section EagerChain.

Variable t : gmap ascii OpContract.

(** Scanning one more token, then the rest, then the final loop. *)
Lemma scan_cons_drain (token : Token) (tokens : list Token)
    (output : list double) (operators : list Token) (t1 : gmap ascii OpContract) :
  bind (scan (token :: tokens) output operators)
       (fun x => match x with (o, ops) => drain ops o end) t1
  = bind (scan_token token output operators)
         (fun x => match x with
                   | (o, ops) =>
                       bind (scan tokens o ops)
                            (fun y => match y with (o', ops') => drain ops' o' end)
                   end) t1.
Proof.
  simpl. unfold bind.
  destruct (scan_token token output operators t1) as [[[o ops]| |] t2];
    reflexivity.
Qed.

Lemma apply_contract (c : ascii) (func : EvaluateFunc) (q : Z) (a : bool)
    (x y : double) (output : list double) :
  t !! c = Some (Contract func q a) ->
  apply (Operator c) (x :: y :: output) t
  = (Return (output ++ [func x y]), t).
Proof.
  intros Hc. unfold apply, evaluate, find, front, pop, read, ret, bind. simpl.
  rewrite Hc. reflexivity.
Qed.

(** One turn of the loop of lines 112-136 whose condition holds. *)
Lemma reduce_operator_top (c2 c : ascii) (f2 f : EvaluateFunc) (p2 p1 : Z)
    (a2 a1 : bool) (below : list Token) (x y : double) (out : list double) :
  t !! c2 = Some (Contract f2 p2 a2) ->
  t !! c = Some (Contract f p1 a1) ->
  (a2 && (p2 <=? p1)%Z) || (negb a2 && (p2 <? p1)%Z) = true ->
  reduce (Operator c2) (Operator c :: below) (x :: y :: out) t
  = reduce (Operator c2) below (out ++ [f x y]) t.
Proof.
  intros H2 H1 Hgo.
  change (reduce (Operator c2) (Operator c :: below) (x :: y :: out) t)
    with (bind (index c2) (fun contract1 =>
            bind (index c) (fun contract2 =>
              bind (reduces contract1 contract2) (fun go : bool =>
                if go then
                  bind (apply (Operator c) (x :: y :: out))
                       (fun output => reduce (Operator c2) below output)
                else ret (Operator c :: below, x :: y :: out)))) t).
  unfold bind at 1. unfold index at 1. rewrite H2.
  unfold bind at 1. unfold index at 1. rewrite H1.
  unfold bind at 1. unfold reduces, ret. rewrite Hgo.
  unfold bind at 1. rewrite (apply_contract c f p1 a1) by exact H1.
  reflexivity.
Qed.

(** The final loop on one pending operator and its two operands. *)
Lemma drain_pending (c : ascii) (func : EvaluateFunc) (q : Z) (a : bool)
    (x y : double) :
  t !! c = Some (Contract func q a) ->
  drain [Operator c] [x; y] t = (Return (func x y), t).
Proof.
  intros Hc.
  change (drain [Operator c] [x; y] t)
    with (bind (apply (Operator c) [x; y]) (fun output => drain [] output) t).
  unfold bind. rewrite (apply_contract c func q a) by exact Hc. reflexivity.
Qed.

Lemma chain_pending (rest : list (ascii * double)) :
  forall (acc v : double) (c : ascii) (func : EvaluateFunc) (q : Z) (a : bool),
    t !! c = Some (Contract func q a) ->
    eager t q rest ->
    exists r,
      chain_value t (func acc v) rest = Some r
      /\ bind (scan (chain_tokens rest) [acc; v] [Operator c])
              (fun x => match x with (o, ops) => drain ops o end) t
         = (Return r, t).
Proof.
  induction rest as [|[c2 v2] rest IH]; intros acc v c func q a Hc Heager.
  - exists (func acc v). split; [reflexivity|].
    change (drain [Operator c] [acc; v] t = (Return (func acc v), t)).
    eapply drain_pending, Hc.
  - destruct Heager as (f2 & p2 & a2 & Hc2 & Hgo & Hrest).
    destruct (IH (func acc v) v2 c2 f2 p2 a2 Hc2 Hrest) as (r & Hval & Hrun).
    exists r. split; [simpl; rewrite Hc2; exact Hval|].
    change (chain_tokens ((c2, v2) :: rest))
      with (Operator c2 :: Number v2 :: chain_tokens rest).
    rewrite scan_cons_drain.
    assert (Hop : scan_token (Operator c2) [acc; v] [Operator c] t
                  = (Return ([func acc v], [Operator c2]), t)).
    { change (scan_token (Operator c2) [acc; v] [Operator c] t)
        with (bind (reduce (Operator c2) [Operator c] [acc; v])
                (fun x => match x with
                          | (ops, out) => ret (out, Operator c2 :: ops)
                          end) t).
      unfold bind.
      rewrite (reduce_operator_top c2 c f2 func p2 q a2 a) by assumption.
      reflexivity. }
    unfold bind at 1. rewrite Hop.
    rewrite scan_cons_drain. exact Hrun.
Qed.

End EagerChain.

(** X10. A chain [a0 c1 a1 c2 a2 ...] in which every operator after the
    first meets the condition of lines 119-122 against the operator before
    it (left-associative and of no higher precedence, or right-associative
    and of lower precedence) evaluates from left to right,
    [((a0 c1 a1) c2 a2) ...], and leaves the table as it was. *)
Theorem expression_eager_chain (t : gmap ascii OpContract) (a0 v : double)
    (c : ascii) (func : EvaluateFunc) (q : Z) (a : bool)
    (rest : list (ascii * double)) :
  t !! c = Some (Contract func q a) ->
  eager t q rest ->
  exists r,
    chain_value t a0 ((c, v) :: rest) = Some r
    /\ expression (Number a0 :: chain_tokens ((c, v) :: rest)) t
       = (Return r, t).
Proof.
  intros Hc Heager.
  destruct (chain_pending t rest a0 v c func q a Hc Heager) as (r & Hval & Hrun).
  exists r. split; [simpl; rewrite Hc; exact Hval|].
  unfold expression.
  change (chain_tokens ((c, v) :: rest))
    with (Operator c :: Number v :: chain_tokens rest).
  rewrite scan_cons_drain. unfold bind at 1.
  change (scan_token (Number a0) [] [] t) with (Return ([a0], @nil Token), t).
  cbv beta iota.
  rewrite scan_cons_drain. unfold bind at 1.
  change (scan_token (Operator c) [a0] [] t)
    with (Return ([a0], [Operator c]), t).
  cbv beta iota.
  rewrite scan_cons_drain. unfold bind at 1.
  change (scan_token (Number v) [a0] [Operator c] t)
    with (Return ([a0; v], [Operator c]), t).
  cbv beta iota. exact Hrun.
Qed.

Lemma expression_eager_chain_witness :
  exists r,
    chain_value (opContracts Pow.repeated) 2
      [("*"%char, 3); ("-"%char, 4); ("+"%char, 5)] = Some r
    /\ expression [Number 2; Operator "*"; Number 3; Operator "-"; Number 4;
                   Operator "+"; Number 5] (opContracts Pow.repeated)
       = (Return r, opContracts Pow.repeated).
Proof.
  apply (expression_eager_chain (opContracts Pow.repeated) 2 3 "*"
           (fun a b => a * b) 2 true [("-"%char, 4); ("+"%char, 5)]).
  - reflexivity.
  - simpl. do 3 eexists. split; [reflexivity|]. split; [reflexivity|].
    do 3 eexists. split; [reflexivity|]. split; [reflexivity|]. exact I.
Defined.

(** ** The table only grows *)

Section Growth.

Lemma grows_refl (t : gmap ascii OpContract) : grows t t.
Proof. intros c. destruct (t !! c); auto. Qed.

Lemma grows_trans (t1 t2 t3 : gmap ascii OpContract) :
  grows t1 t2 -> grows t2 t3 -> grows t1 t3.
Proof.
  intros H12 H23 c. specialize (H12 c). specialize (H23 c).
  destruct (t1 !! c) as [k|].
  - rewrite H12 in H23. exact H23.
  - destruct H12 as [H12 | H12]; rewrite H12 in H23; auto.
Qed.

Lemma grows_insert (t : gmap ascii OpContract) (c : ascii) :
  t !! c = None -> grows t (<[c := Uninitialised]> t).
Proof.
  intros Hc c'. destruct (decide (c = c')) as [<- | Hne].
  - rewrite Hc, lookup_insert_eq. auto.
  - rewrite lookup_insert_ne by exact Hne. destruct (t !! c'); auto.
Qed.

Lemma monotone_pure {A} (r : outcome A) : monotone (fun t => (r, t)).
Proof. intros t t' r' [= _ <-]. apply grows_refl. Qed.

Lemma monotone_bind {A B} (m : M A) (k : A -> M B) :
  monotone m -> (forall a, monotone (k a)) -> monotone (bind m k).
Proof.
  intros Hm Hk t t' r. unfold bind.
  destruct (m t) as [[a| |] t1] eqn:Em; specialize (Hm _ _ _ Em).
  - intros Hka. eapply grows_trans; [exact Hm|]. eapply Hk, Hka.
  - intros [= _ <-]. exact Hm.
  - intros [= _ <-]. exact Hm.
Qed.

Lemma monotone_index (c : ascii) : monotone (index c).
Proof.
  intros t t' r. unfold index. destruct (t !! c) eqn:Ec; intros [= _ <-].
  - apply grows_refl.
  - apply grows_insert, Ec.
Qed.

Lemma monotone_read {A} (member : option A) : monotone (read member).
Proof. destruct member; apply monotone_pure. Qed.

Lemma monotone_front (output : list double) : monotone (front output).
Proof. destruct output; apply monotone_pure. Qed.

Lemma monotone_pop (output : list double) : monotone (pop output).
Proof. destruct output; apply monotone_pure. Qed.

Lemma monotone_evaluate (left : double) (op : ascii) (right : double) :
  monotone (evaluate left op right).
Proof.
  intros t t' r. unfold evaluate, bind, find.
  destruct (t !! op) as [[func p a|]|]; intros [= _ <-]; apply grows_refl.
Qed.

Lemma monotone_reduces (contract1 contract2 : OpContract) :
  monotone (reduces contract1 contract2).
Proof. destruct contract1, contract2; apply monotone_pure. Qed.

Lemma monotone_apply (op : Token) (output : list double) :
  monotone (apply op output).
Proof.
  unfold apply.
  apply monotone_bind; [apply monotone_front|intros left].
  apply monotone_bind; [apply monotone_pop|intros out1].
  apply monotone_bind; [apply monotone_front|intros right].
  apply monotone_bind; [apply monotone_pop|intros out2].
  apply monotone_bind; [apply monotone_read|intros sym].
  apply monotone_bind; [apply monotone_evaluate|intros v].
  apply monotone_pure.
Qed.

Lemma monotone_reduce (token : Token) (operators : list Token) :
  forall output : list double, monotone (reduce token operators output).
Proof.
  induction operators as [|op2 below IH]; intros output; simpl.
  - apply monotone_pure.
  - apply monotone_bind; [apply monotone_read|intros sym1].
    apply monotone_bind; [apply monotone_index|intros contract1].
    destruct (negb (TokenType_eqb (type op2) OPERATOR)); [apply monotone_pure|].
    apply monotone_bind; [apply monotone_read|intros sym2].
    apply monotone_bind; [apply monotone_index|intros contract2].
    apply monotone_bind; [apply monotone_reduces|intros go].
    destruct go; [|apply monotone_pure].
    apply monotone_bind; [apply monotone_apply|intros out1]. apply IH.
Qed.

Lemma monotone_unwind (operators : list Token) :
  forall output : list double, monotone (unwind operators output).
Proof.
  induction operators as [|op below IH]; intros output; simpl.
  - apply monotone_pure.
  - destruct (TokenType_eqb (type op) LEFT_BRACKET); [apply monotone_pure|].
    apply monotone_bind; [apply monotone_apply|intros out1]. apply IH.
Qed.

Lemma monotone_scan_token (token : Token) (output : list double)
    (operators : list Token) :
  monotone (scan_token token output operators).
Proof.
  unfold scan_token. destruct (type token).
  - apply monotone_pure.
  - apply monotone_bind; [apply monotone_unwind|intros [ops out]].
    apply monotone_pure.
  - apply monotone_bind; [apply monotone_read|intros v]. apply monotone_pure.
  - apply monotone_bind; [apply monotone_reduce|intros [ops out]].
    apply monotone_pure.
Qed.

Lemma monotone_scan (tokens : list Token) :
  forall (output : list double) (operators : list Token),
    monotone (scan tokens output operators).
Proof.
  induction tokens as [|token tokens IH]; intros output operators; simpl.
  - apply monotone_pure.
  - apply monotone_bind; [apply monotone_scan_token|intros [out ops]].
    apply IH.
Qed.

Lemma monotone_drain (operators : list Token) :
  forall output : list double, monotone (drain operators output).
Proof.
  induction operators as [|token below IH]; intros output; simpl.
  - apply monotone_front.
  - destruct (TokenType_eqb (type token) LEFT_BRACKET
              || TokenType_eqb (type token) RIGHT_BRACKET);
      [apply monotone_pure|].
    destruct (length output <? 2)%nat; [apply monotone_pure|].
    apply monotone_bind; [apply monotone_apply|intros out1]. apply IH.
Qed.

Lemma monotone_expression (tokens : list Token) : monotone (expression tokens).
Proof.
  unfold expression.
  apply monotone_bind; [apply monotone_scan|intros [out ops]].
  apply monotone_drain.
Qed.

End Growth.

(** X11. Whatever the tokens and however the evaluation ends, the table
    only grows: every contract it held is still there unchanged, and an
    entry it has gained is an uninitialised one. *)
Theorem expression_table_grows (tokens : list Token)
    (t t' : gmap ascii OpContract) (r : outcome double) :
  expression tokens t = (r, t') ->
  t ⊆ t'
  /\ (forall c contract,
        t !! c = None -> t' !! c = Some contract -> contract = Uninitialised).
Proof.
  intros Hrun. apply monotone_expression in Hrun. split.
  - apply map_subseteq_spec. intros c contract Hc.
    specialize (Hrun c). rewrite Hc in Hrun. exact Hrun.
  - intros c contract Hc Hc'. specialize (Hrun c). rewrite Hc in Hrun.
    destruct Hrun as [Hrun | Hrun]; congruence.
Qed.

Lemma expression_table_grows_witness :
  opContracts Pow.repeated ⊆ <["%"%char := Uninitialised]> (opContracts Pow.repeated).
Proof.
  apply (expression_table_grows [LeftBracket; Operator "%"]
           (opContracts Pow.repeated) _ (Exit InsufficientOperands)).
  vm_compute. reflexivity.
Defined.

(** ** What a returned value says about the line *)

Section Accounting.

(** Applying an operator takes two operands and gives one back. *)
Lemma apply_length (op : Token) (output out' : list double)
    (t t' : gmap ascii OpContract) :
  apply op output t = (Return out', t') -> length output = S (length out').
Proof.
  unfold apply, evaluate, find, bind, front, pop, read, ret, undefined, exit.
  destruct output as [|l [|r out]]; try discriminate.
  destruct (symbol op) as [c|]; try discriminate.
  destruct (t !! c) as [[func p a|]|]; try discriminate.
  intros [= <- _]. rewrite length_app. simpl. lia.
Qed.

(** The loop of an OPERATOR token pops operator tokens only, one operand
    less for each. *)
Lemma reduce_accounts (token : Token) (operators : list Token) :
  forall (output : list double) (t t' : gmap ascii OpContract)
         (ops' : list Token) (out' : list double),
    reduce token operators output t = (Return (ops', out'), t') ->
    (forall ty, ty <> OPERATOR -> count ty ops' = count ty operators)
    /\ (length out' + count OPERATOR operators
        = length output + count OPERATOR ops')%nat.
Proof.
  induction operators as [|op2 below IH]; intros output t t' ops' out' Hred.
  - injection Hred as <- <- <-. split; reflexivity.
  - simpl in Hred.
    apply bind_return in Hred as (sym1 & t1 & _ & Hred).
    apply bind_return in Hred as (contract1 & t2 & _ & Hred).
    destruct (TokenType_eqb (type op2) OPERATOR) eqn:Eop; simpl in Hred;
      [|injection Hred as <- <- <-; split; reflexivity].
    apply bind_return in Hred as (sym2 & t3 & _ & Hred).
    apply bind_return in Hred as (contract2 & t4 & _ & Hred).
    apply bind_return in Hred as (go & t5 & _ & Hred).
    destruct go; [|injection Hred as <- <- <-; split; reflexivity].
    apply bind_return in Hred as (out1 & t6 & Happ & Hred).
    apply apply_length in Happ. apply IH in Hred as [Hother Hlen].
    simpl. rewrite Eop. split; [|lia].
    intros ty Hty. rewrite (Hother ty Hty).
    destruct (type op2); try discriminate. destruct ty; simpl; congruence.
Qed.

(** The loop of a RIGHT_BRACKET token closes exactly one left bracket. *)
Lemma unwind_accounts (operators : list Token) :
  forall (output : list double) (t t' : gmap ascii OpContract)
         (ops' : list Token) (out' : list double),
    unwind operators output t = (Return (ops', out'), t') ->
    count RIGHT_BRACKET operators = O ->
    count NUMBER operators = O ->
    count LEFT_BRACKET operators = S (count LEFT_BRACKET ops')
    /\ count RIGHT_BRACKET ops' = O /\ count NUMBER ops' = O
    /\ (length out' + count OPERATOR operators
        = length output + count OPERATOR ops')%nat.
Proof.
  induction operators as [|op below IH];
    intros output t t' ops' out' Hun Hrb Hnum; [discriminate|].
  simpl in Hun, Hrb, Hnum |- *.
  destruct (type op) eqn:Ety; simpl in Hun, Hrb, Hnum |- *; try discriminate.
  - injection Hun as <- <- <-. auto.
  - apply bind_return in Hun as (out1 & t1 & Happ & Hun).
    apply apply_length in Happ.
    apply IH in Hun as (Hlb & Hrb' & Hnum' & Hlen); auto.
    repeat split; auto. lia.
Qed.

(** The bookkeeping of a scan: the operator stack holds left brackets and
    operators only; its left brackets are the brackets still open; and the
    operands in the queue are the numbers read less the operators already
    applied. *)
Lemma scan_accounts (tokens : list Token) :
  forall (output out' : list double) (operators ops' : list Token)
         (t t' : gmap ascii OpContract),
    scan tokens output operators t = (Return (out', ops'), t') ->
    count RIGHT_BRACKET operators = O ->
    count NUMBER operators = O ->
    depth tokens (count LEFT_BRACKET operators)
    = Some (count LEFT_BRACKET ops')
    /\ count RIGHT_BRACKET ops' = O /\ count NUMBER ops' = O
    /\ (length out' + count OPERATOR tokens + count OPERATOR operators
        = length output + count NUMBER tokens + count OPERATOR ops')%nat.
Proof.
  induction tokens as [|token tokens IH];
    intros output out' operators ops' t t' Hscan Hrb Hnum.
  - injection Hscan as <- <- <-. simpl. repeat split; auto.
  - simpl in Hscan.
    apply bind_return in Hscan as ([out1 ops1] & t1 & Htok & Hscan).
    unfold scan_token in Htok. simpl.
    destruct (type token) eqn:Ety; simpl.
    + injection Htok as <- <- <-.
      apply IH in Hscan; simpl; rewrite ?Ety; simpl; auto.
      simpl in Hscan. rewrite Ety in Hscan. simpl in Hscan.
      destruct Hscan as (Hd & Hrb' & Hnum' & Hlen). repeat split; auto.
    + apply bind_return in Htok as ([ops2 out2] & t2 & Hun & Htok).
      injection Htok as <- <- <-.
      apply unwind_accounts in Hun as (Hlb & Hrb1 & Hnum1 & Hlen1); auto.
      apply IH in Hscan as (Hd & Hrb' & Hnum' & Hlen); auto.
      rewrite Hlb. repeat split; auto. lia.
    + apply bind_return in Htok as (v & t2 & _ & Htok).
      injection Htok as <- <- <-.
      apply IH in Hscan as (Hd & Hrb' & Hnum' & Hlen); auto.
      rewrite length_app in Hlen. simpl in Hlen. repeat split; auto. lia.
    + apply bind_return in Htok as ([ops2 out2] & t2 & Hred & Htok).
      injection Htok as <- <- <-.
      apply reduce_accounts in Hred as [Hother Hlen1].
      apply IH in Hscan; simpl; rewrite ?Ety; simpl;
        [|rewrite Hother by discriminate; assumption ..].
      simpl in Hscan. rewrite Ety in Hscan. simpl in Hscan.
      destruct Hscan as (Hd & Hrb' & Hnum' & Hlen).
      rewrite Hother in Hd by discriminate. repeat split; auto. lia.
Qed.

(** The final loop returns only from a stack without brackets, and needs
    one operand more than the stack has tokens. *)
Lemma drain_accounts (operators : list Token) :
  forall (output : list double) (t t' : gmap ascii OpContract) (v : double),
    drain operators output t = (Return v, t') ->
    count LEFT_BRACKET operators = O /\ count RIGHT_BRACKET operators = O
    /\ (count OPERATOR operators < length output)%nat.
Proof.
  induction operators as [|token below IH]; intros output t t' v Hdrain.
  - destruct output; [discriminate|]. simpl. repeat split; lia.
  - simpl in Hdrain |- *.
    destruct (type token) eqn:Ety; simpl in Hdrain |- *; try discriminate;
      (destruct (length output <? 2)%nat; [discriminate|]);
      apply bind_return in Hdrain as (out1 & t1 & Happ & Hdrain);
      apply apply_length in Happ;
      apply IH in Hdrain as (Hlb & Hrb & Hlen); repeat split; auto; lia.
Qed.

End Accounting.

(** X12. A value is returned only for a line whose brackets match: read
    from left to right no right bracket comes without an open left
    bracket, and none is left open at the end. *)
Theorem expression_brackets_match (tokens : list Token)
    (t t' : gmap ascii OpContract) (v : double) :
  expression tokens t = (Return v, t') -> depth tokens 0 = Some O.
Proof.
  unfold expression. intros H.
  apply bind_return in H as ([output operators] & t1 & Hscan & Hdrain).
  apply scan_accounts in Hscan as (Hd & _); [|reflexivity ..].
  apply drain_accounts in Hdrain as (Hlb & _).
  simpl in Hd. rewrite Hlb in Hd. exact Hd.
Qed.

Lemma expression_brackets_match_witness :
  depth [LeftBracket; Number 1; Operator "+"; Number 2; RightBracket;
         Operator "*"; Number 3] 0 = Some O.
Proof.
  apply (expression_brackets_match _ (opContracts Pow.repeated)
           (opContracts Pow.repeated) 9).
  vm_compute. reflexivity.
Defined.

(** X13. A value is returned only for a line with more numbers than
    operators: every operator of the line has been applied, each to two
    operands, before the front of the queue is returned. *)
Theorem expression_more_numbers (tokens : list Token)
    (t t' : gmap ascii OpContract) (v : double) :
  expression tokens t = (Return v, t') ->
  (count OPERATOR tokens < count NUMBER tokens)%nat.
Proof.
  unfold expression. intros H.
  apply bind_return in H as ([output operators] & t1 & Hscan & Hdrain).
  apply scan_accounts in Hscan as (_ & _ & _ & Hlen); [|reflexivity ..].
  apply drain_accounts in Hdrain as (_ & _ & Hout).
  simpl in Hlen. lia.
Qed.

Lemma expression_more_numbers_witness :
  (count OPERATOR [Number 8; Operator "-"; Number 4; Operator "-"; Number 2]
   < count NUMBER [Number 8; Operator "-"; Number 4; Operator "-"; Number 2])%nat.
Proof.
  apply (expression_more_numbers _ (opContracts Pow.repeated)
           (opContracts Pow.repeated) 2).
  vm_compute. reflexivity.
Defined.

Section Support.

(** Whether a token is supported does not change while the table grows. *)
Lemma supported_grows (t t' : gmap ascii OpContract) (token : Token) :
  grows t t' -> (supported t token <-> supported t' token).
Proof.
  intros Hg. split; intros (c & func & p & a & Hsym & Hc);
    exists c, func, p, a; (split; [exact Hsym|]); specialize (Hg c).
  - rewrite Hc in Hg. exact Hg.
  - destruct (t !! c) as [k|]; [congruence|].
    destruct Hg as [Hg | Hg]; congruence.
Qed.

Lemma apply_supported (op : Token) (output out' : list double)
    (t t' : gmap ascii OpContract) :
  apply op output t = (Return out', t') -> t' = t /\ supported t op.
Proof.
  intros H. apply apply_return in H as (-> & c & func & p & a & Hsym & Hc).
  split; [reflexivity|]. exists c, func, p, a. auto.
Qed.

(** The loop of an OPERATOR token: what it pops it has applied. *)
Lemma reduce_supported (token : Token) (operators : list Token) :
  forall (output : list double) (t t' : gmap ascii OpContract)
         (ops' : list Token) (out' : list double),
    reduce token operators output t = (Return (ops', out'), t') ->
    exists popped,
      operators = popped ++ ops' /\ Forall (supported t) popped.
Proof.
  induction operators as [|op2 below IH]; intros output t t' ops' out' Hred.
  - injection Hred as <- <- <-. exists []. split; [reflexivity|constructor].
  - simpl in Hred.
    apply bind_return in Hred as (sym1 & t1 & Hsym1 & Hred).
    apply read_return in Hsym1 as [_ ->].
    apply bind_return in Hred as (contract1 & t2 & Hidx1 & Hred).
    apply monotone_index in Hidx1.
    destruct (negb (TokenType_eqb (type op2) OPERATOR)).
    { injection Hred as <- <- <-. exists []. split; [reflexivity|constructor]. }
    apply bind_return in Hred as (sym2 & t3 & Hsym2 & Hred).
    apply read_return in Hsym2 as [_ ->].
    apply bind_return in Hred as (contract2 & t4 & Hidx2 & Hred).
    apply monotone_index in Hidx2.
    apply bind_return in Hred as (go & t5 & Hgo & Hred).
    apply monotone_reduces in Hgo.
    assert (Hg : grows t t5) by eauto using grows_trans.
    destruct go;
      [|injection Hred as <- <- <-; exists []; split; [reflexivity|constructor]].
    apply bind_return in Hred as (out1 & t6 & Happ & Hred).
    apply apply_supported in Happ as [-> Hop2].
    apply IH in Hred as (popped & -> & Hpopped).
    exists (op2 :: popped). split; [reflexivity|]. constructor.
    + apply (supported_grows t t5); assumption.
    + eapply Forall_impl; [exact Hpopped|].
      intros tok. apply (supported_grows t t5). exact Hg.
Qed.

(** The loop of a RIGHT_BRACKET token: what it pops it has applied, down
    to the left bracket it drops. *)
Lemma unwind_supported (operators : list Token) :
  forall (output : list double) (t t' : gmap ascii OpContract)
         (ops' : list Token) (out' : list double),
    unwind operators output t = (Return (ops', out'), t') ->
    exists popped bracket,
      operators = popped ++ bracket :: ops'
      /\ type bracket = LEFT_BRACKET /\ Forall (supported t) popped.
Proof.
  induction operators as [|op below IH]; intros output t t' ops' out' Hun;
    [discriminate|].
  simpl in Hun. destruct (TokenType_eqb (type op) LEFT_BRACKET) eqn:Eop.
  - injection Hun as <- <- <-. exists [], op. split; [reflexivity|].
    split; [|constructor]. destruct (type op); try discriminate. reflexivity.
  - apply bind_return in Hun as (out1 & t1 & Happ & Hun).
    apply apply_supported in Happ as [-> Hop].
    apply IH in Hun as (popped & bracket & -> & Hty & Hpopped).
    exists (op :: popped), bracket. split; [reflexivity|].
    split; [exact Hty|]. constructor; assumption.
Qed.

(** An operator token met by the scan has been applied or waits on the
    operator stack. *)
Lemma scan_supported (tokens : list Token) :
  forall (output out' : list double) (operators ops' : list Token)
         (t t' : gmap ascii OpContract),
    scan tokens output operators t = (Return (out', ops'), t') ->
    forall token,
      type token = OPERATOR ->
      token ∈ operators \/ token ∈ tokens ->
      token ∈ ops' \/ supported t token.
Proof.
  induction tokens as [|tok tokens IH];
    intros output out' operators ops' t t' Hscan token Hty Hin.
  - injection Hscan as <- <- <-. destruct Hin as [Hin | Hin]; [auto|].
    inversion Hin.
  - simpl in Hscan.
    apply bind_return in Hscan as ([out1 ops1] & t1 & Htok & Hscan).
    pose proof (monotone_scan_token _ _ _ _ _ _ Htok) as Hg.
    assert (Hstep : token ∈ ops1 \/ supported t token \/ token ∈ tokens).
    { unfold scan_token in Htok. destruct (type tok) eqn:Etok.
      - injection Htok as <- <- <-. rewrite !elem_of_cons.
        rewrite elem_of_cons in Hin. tauto.
      - apply bind_return in Htok as ([ops2 out2] & t2 & Hun & Htok).
        injection Htok as <- <- <-.
        apply unwind_supported in Hun as (popped & bracket & -> & Hb & Hpop).
        rewrite Forall_forall in Hpop.
        rewrite elem_of_app, !elem_of_cons in Hin.
        destruct Hin as [[Hin | [-> | Hin]] | [-> | Hin]]; auto; congruence.
      - apply bind_return in Htok as (v & t2 & _ & Htok).
        injection Htok as <- <- <-. rewrite elem_of_cons in Hin.
        destruct Hin as [Hin | [-> | Hin]]; auto; congruence.
      - apply bind_return in Htok as ([ops2 out2] & t2 & Hred & Htok).
        injection Htok as <- <- <-.
        apply reduce_supported in Hred as (popped & -> & Hpop).
        rewrite Forall_forall in Hpop.
        rewrite elem_of_app, elem_of_cons in Hin. rewrite elem_of_cons.
        destruct Hin as [[Hin | Hin] | [-> | Hin]]; auto. }
    destruct Hstep as [Hstep | [Hstep | Hstep]]; [|auto|].
    + destruct (IH _ _ _ _ _ _ Hscan token Hty (or_introl Hstep)) as [H | H];
        [auto|]. right. apply (supported_grows t t1); assumption.
    + destruct (IH _ _ _ _ _ _ Hscan token Hty (or_intror Hstep)) as [H | H];
        [auto|]. right. apply (supported_grows t t1); assumption.
Qed.

(** The final loop returns only after applying every token of the stack. *)
Lemma drain_supported (operators : list Token) :
  forall (output : list double) (t t' : gmap ascii OpContract) (v : double),
    drain operators output t = (Return v, t') ->
    Forall (supported t) operators.
Proof.
  induction operators as [|token below IH]; intros output t t' v Hdrain;
    [constructor|].
  simpl in Hdrain.
  destruct (TokenType_eqb (type token) LEFT_BRACKET
            || TokenType_eqb (type token) RIGHT_BRACKET); [discriminate|].
  destruct (length output <? 2)%nat; [discriminate|].
  apply bind_return in Hdrain as (out1 & t1 & Happ & Hdrain).
  apply apply_supported in Happ as [-> Hop].
  constructor; [exact Hop|]. eapply IH, Hdrain.
Qed.

End Support.

(** X14. A value is returned only when every operator of the line has a
    proper contract in the table, and the table is then left exactly as it
    was: an unknown operator anywhere in the line rules out a result. *)
Theorem expression_operators_supported (tokens : list Token)
    (t t' : gmap ascii OpContract) (v : double) :
  expression tokens t = (Return v, t') ->
  t' = t
  /\ forall token,
       token ∈ tokens -> type token = OPERATOR -> supported t token.
Proof.
  intros Hrun. split; [eapply expression_keeps_table, Hrun|].
  intros token Hin Hty. unfold expression in Hrun.
  apply bind_return in Hrun as ([output operators] & t1 & Hscan & Hdrain).
  pose proof (monotone_scan _ _ _ _ _ _ Hscan) as Hg.
  apply drain_supported in Hdrain. rewrite Forall_forall in Hdrain.
  destruct (scan_supported _ _ _ _ _ _ _ Hscan token Hty (or_intror Hin))
    as [Hstack | Hdone]; [|exact Hdone].
  apply (supported_grows t t1); auto.
Qed.

Lemma expression_operators_supported_witness :
  supported (opContracts Pow.repeated) (Operator "*").
Proof.
  apply (expression_operators_supported
           [Number 2; Operator "+"; Number 3; Operator "*"; Number 4]
           (opContracts Pow.repeated) (opContracts Pow.repeated) 10).
  - vm_compute. reflexivity.
  - repeat constructor.
  - reflexivity.
Defined.

(** * Further properties of the read loop *)

Lemma main_keeps_table_witness :
  main ["8-4-2"; ""; "(2+3)*4"]%string (opContracts Pow.repeated)
  = ([2; 20], (Return tt, opContracts Pow.repeated))
  /\ opContracts Pow.repeated = opContracts Pow.repeated.
Proof.
  assert (Hrun : main ["8-4-2"; ""; "(2+3)*4"]%string (opContracts Pow.repeated)
                 = ([2; 20], (Return tt, opContracts Pow.repeated)))
    by (vm_compute; reflexivity).
  split; [exact Hrun|]. exact (main_keeps_table _ _ _ _ Hrun).
Defined.

(** X16. Lines of no characters are skipped: the loop behaves as on the
    input without them. *)
Theorem main_skips_empty_lines (stdin : list string) (t : gmap ascii OpContract) :
  main (List.filter (fun input => negb (String.length input =? 0)%nat) stdin) t
  = main stdin t.
Proof.
  revert t. induction stdin as [|input rest IH]; intros t; [reflexivity|].
  simpl. destruct (String.length input =? 0)%nat eqn:E; simpl; [apply IH|].
  rewrite E.
  destruct (calculate input t) as [[v| |] t1]; try reflexivity.
  rewrite IH. reflexivity.
Qed.


(** X18. A line that evaluates to a value evaluates to the same value
    however often it is entered: nothing of one evaluation is carried to
    the next. *)
Theorem main_repeats (input : string) (t t' : gmap ascii OpContract)
    (v : double) (n : nat) :
  String.length input <> O ->
  calculate input t = (Return v, t') ->
  main (List.repeat input n) t = (List.repeat v n, (Return tt, t)).
Proof.
  intros Hlen Hcalc.
  pose proof (calculate_keeps_table _ _ _ _ Hcalc) as ->.
  induction n as [|n IH]; [reflexivity|]. simpl.
  destruct (String.length input =? 0)%nat eqn:E;
    [apply Nat.eqb_eq in E; contradiction|].
  rewrite Hcalc, IH. reflexivity.
Qed.

Lemma main_repeats_witness :
  main ["(2+3)*4"; "(2+3)*4"; "(2+3)*4"]%string (opContracts Pow.repeated)
  = ([20; 20; 20], (Return tt, opContracts Pow.repeated)).
Proof.
  apply (main_repeats "(2+3)*4" (opContracts Pow.repeated)
           (opContracts Pow.repeated) 20 3).
  - discriminate.
  - vm_compute. reflexivity.
Defined.

(** * Spaces at the end of a line *)

Section TrailingSpaces.

Import Stream.

(** What is appended to the line: a space, then anything. *)
Variable sp : list ascii.

Lemma take_digits_app (b : list ascii) :
  take_digits (b ++ " "%char :: sp)
  = (fst (take_digits b), snd (take_digits b) ++ " "%char :: sp).
Proof.
  induction b as [|c b IH]; [reflexivity|]. simpl.
  destruct (isdigit c); [|reflexivity].
  rewrite IH. destruct (take_digits b) as [ds rest]. reflexivity.
Qed.

Lemma take_sign_app (b : list ascii) :
  take_sign (b ++ " "%char :: sp)
  = (fst (take_sign b), snd (take_sign b) ++ " "%char :: sp).
Proof.
  destruct b as [|c b]; [reflexivity|]. simpl.
  destruct (c =? "-")%char; [reflexivity|].
  destruct (c =? "+")%char; reflexivity.
Qed.

Lemma scan_field_app (b : list ascii) :
  scan_field (b ++ " "%char :: sp)
  = (fst (scan_field b), snd (scan_field b) ++ " "%char :: sp).
Proof.
  unfold scan_field. rewrite take_sign_app.
  destruct (take_sign b) as [neg s1]. simpl. rewrite take_digits_app.
  destruct (take_digits s1) as [ip s2]. simpl.
  destruct s2 as [|c2 s2]; simpl.
  - destruct ip; reflexivity.
  - destruct (c2 =? ".")%char.
    + rewrite take_digits_app.
      destruct (take_digits s2) as [fp s3]. simpl.
      destruct s3 as [|c3 s3]; simpl.
      * reflexivity.
      * destruct (((c3 =? "e")%char || (c3 =? "E")%char)
                  && match ip, fp with [], [] => false | _, _ => true end);
          [|reflexivity].
        rewrite take_sign_app. destruct (take_sign s3) as [eneg r1]. simpl.
        rewrite take_digits_app. destruct (take_digits r1) as [ed r2].
        reflexivity.
    + destruct (((c2 =? "e")%char || (c2 =? "E")%char)
                && match ip with [] => false | _ => true end);
        [|reflexivity].
      rewrite take_sign_app. destruct (take_sign s2) as [eneg r1]. simpl.
      rewrite take_digits_app. destruct (take_digits r1) as [ed r2].
      reflexivity.
Qed.

(** The extraction sees the same field with or without the appended
    spaces, and stops in front of them. *)
Lemma extract_double_app (b : list ascii) :
  let short := extract_double (mkStream b false false) in
  extract_double (mkStream (b ++ " "%char :: sp) false false)
  = (fst short,
     mkStream (buf (snd short) ++ " "%char :: sp) false (failbit (snd short))).
Proof.
  unfold extract_double. simpl. rewrite scan_field_app.
  destruct (scan_field b) as [f rest]. simpl.
  assert (Heof : match rest ++ " "%char :: sp with
                 | [] => true
                 | _ :: _ => false
                 end = false) by (destruct rest; reflexivity).
  rewrite Heof.
  destruct (field_value f) as [[| | |]|]; reflexivity.
Qed.

Lemma extract_double_eof (b : list ascii) :
  let short := extract_double (mkStream b false false) in
  eofbit (snd short) = match buf (snd short) with [] => true | _ => false end.
Proof.
  unfold extract_double. simpl.
  destruct (scan_field b) as [f rest].
  destruct (field_value f) as [[| | |]|]; destruct rest; reflexivity.
Qed.

(** A turn on the line with the spaces appended does what the turn on
    the line does, and leaves the spaces in the buffer. *)
Lemma tokenise_turn_app (c : ascii) (rest : list ascii) (tokens : list Token) :
  tokenise_turn (mkStream ((c :: rest) ++ " "%char :: sp) false false) tokens
  = match tokenise_turn (mkStream (c :: rest) false false) tokens with
    | Break => Break
    | Next st toks =>
        Next (mkStream (buf st ++ " "%char :: sp) false (failbit st)) toks
    | Stop e => Stop e
    end.
Proof.
  unfold tokenise_turn, peek.
  change (buf (mkStream ((c :: rest) ++ " "%char :: sp) false false))
    with (c :: (rest ++ " "%char :: sp)).
  change (buf (mkStream (c :: rest) false false)) with (c :: rest).
  cbv beta iota.
  rewrite (extract_double_app (c :: rest)).
  destruct (c =? " ")%char; [reflexivity|].
  destruct (c =? "(")%char; [reflexivity|].
  destruct (c =? ")")%char; [reflexivity|].
  destruct (extract_double (mkStream (c :: rest) false false))
    as [v [after eof fail]]. cbn [fst snd buf failbit].
  destruct (((c =? "+")%char || (c =? "-")%char) && sign_position tokens).
  - destruct fail; reflexivity.
  - destruct (isdigit c); reflexivity.
Qed.

(** After a turn on a good stream, end of file is raised only on an empty
    buffer. *)
Lemma tokenise_turn_eof_empty (b : list ascii) (tokens toks : list Token)
    (st : istringstream) :
  tokenise_turn (mkStream b false false) tokens = Next st toks ->
  eofbit st = true -> buf st = [].
Proof.
  unfold tokenise_turn, peek. destruct b as [|c rest]; [discriminate|].
  cbn [buf]. pose proof (extract_double_eof (c :: rest)) as Heof.
  destruct (c =? " ")%char; [intros [= <- _]; discriminate|].
  destruct (c =? "(")%char; [intros [= <- _]; discriminate|].
  destruct (c =? ")")%char; [intros [= <- _]; discriminate|].
  destruct (extract_double (mkStream (c :: rest) false false))
    as [v [after eof fail]]. cbn [fst snd buf eofbit failbit] in *.
  destruct (((c =? "+")%char || (c =? "-")%char) && sign_position tokens).
  - destruct fail; [discriminate|]. intros [= <- _]. cbn. subst eof.
    destruct after; [reflexivity|discriminate].
  - destruct (isdigit c); [|intros [= <- _]; discriminate].
    intros [= <- _]. cbn. subst eof.
    destruct after; [reflexivity|discriminate].
Qed.

End TrailingSpaces.

Lemma list_ascii_of_string_app (a b : string) :
  list_ascii_of_string (String.append a b)
  = list_ascii_of_string a ++ list_ascii_of_string b.
Proof.
  induction a as [|c a IH]; [reflexivity|].
  change (c :: list_ascii_of_string (String.append a b)
          = c :: (list_ascii_of_string a ++ list_ascii_of_string b)).
  rewrite IH. reflexivity.
Qed.

Lemma tokenise_loop_not_good (fuel : nat) (s : istringstream)
    (tokens : list Token) :
  Stream.good s = false -> tokenise_loop fuel s tokens = Some (Return tokens).
Proof. intros Hs. destruct fuel; simpl; rewrite Hs; reflexivity. Qed.

Lemma tokenise_loop_trailing (n : nat) (fuel : nat) :
  forall (b : list ascii) (tokens : list Token) (r : outcome (list Token)),
    tokenise_loop fuel (mkStream b false false) tokens = Some r ->
    forall fuel',
      (length b + S n < fuel')%nat ->
      tokenise_loop fuel'
        (mkStream (b ++ list_ascii_of_string (spaces (S n))) false false) tokens
      = Some r.
Proof.
  set (sp := list_ascii_of_string (spaces n)).
  change (list_ascii_of_string (spaces (S n))) with (" "%char :: sp).
  assert (Hsp : forall fuel' tokens,
             (S n < fuel')%nat ->
             tokenise_loop fuel' (mkStream (" "%char :: sp) false false) tokens
             = Some (Return tokens)).
  { intros fuel' tokens Hlt. apply (tokenise_loop_spaces (S n)). exact Hlt. }
  induction fuel as [|fuel IH]; intros b tokens r Hrun fuel' Hlen;
    [discriminate|].
  destruct b as [|c rest].
  { injection Hrun as <-. apply Hsp. simpl in Hlen. lia. }
  destruct fuel' as [|fuel']; [lia|].
  change (tokenise_loop (S fuel) (mkStream (c :: rest) false false) tokens)
    with (match tokenise_turn (mkStream (c :: rest) false false) tokens with
          | Break => Some (Return tokens)
          | Next st toks => tokenise_loop fuel st toks
          | Stop e => Some (Exit e)
          end) in Hrun.
  change (tokenise_loop (S fuel')
            (mkStream ((c :: rest) ++ " "%char :: sp) false false) tokens)
    with (match tokenise_turn
                  (mkStream ((c :: rest) ++ " "%char :: sp) false false) tokens
          with
          | Break => Some (Return tokens)
          | Next st toks => tokenise_loop fuel' st toks
          | Stop e => Some (Exit e)
          end).
  rewrite tokenise_turn_app.
  destruct (tokenise_turn (mkStream (c :: rest) false false) tokens)
    as [|st toks|e] eqn:Hturn; [exact Hrun| |exact Hrun].
  pose proof (tokenise_turn_shorter _ _ _ _ Hturn) as Hshort.
  pose proof (tokenise_turn_eof_empty _ _ _ _ Hturn) as Hempty.
  destruct st as [after eof fail]. cbn [buf eofbit failbit] in *.
  destruct fail.
  - rewrite tokenise_loop_not_good in Hrun
      by (unfold Stream.good; simpl; apply andb_false_r).
    rewrite tokenise_loop_not_good by reflexivity. exact Hrun.
  - destruct eof.
    + rewrite (Hempty eq_refl).
      rewrite tokenise_loop_not_good in Hrun by reflexivity.
      rewrite <- Hrun. apply Hsp. simpl in Hlen. lia.
    + eapply IH; [exact Hrun|]. simpl in Hlen, Hshort. lia.
Qed.

(** X19. Spaces after a line change nothing: the line tokenises as it
    does without them. *)
Theorem tokenise_trailing_spaces (input : string) (n : nat) :
  tokenise (String.append input (spaces n)) = tokenise input.
Proof.
  destruct n as [|n].
  - replace (String.append input (spaces 0)) with input; [reflexivity|].
    induction input as [|c input IH]; [reflexivity|].
    change (String c input = String c (String.append input (spaces 0))).
    rewrite <- IH. reflexivity.
  - pose proof (tokenise_total input) as Hshort.
    pose proof (tokenise_total (String.append input (spaces (S n)))) as Hlong.
    assert (Hlen : String.length (String.append input (spaces (S n)))
                   = (String.length input + S n)%nat).
    { rewrite <- !length_list_ascii_of_string, list_ascii_of_string_app.
      rewrite length_app, !length_list_ascii_of_string. f_equal.
      clear. induction n; simpl in *; congruence. }
    apply (tokenise_loop_trailing n) with
      (fuel' := tokenise_fuel (String.append input (spaces (S n)))) in Hshort.
    + unfold Stream.open in Hlong. rewrite list_ascii_of_string_app in Hlong.
      rewrite Hshort in Hlong. congruence.
    + unfold tokenise_fuel. rewrite Hlen, length_list_ascii_of_string. lia.
Qed.

(** * Two operators that do not reduce *)

(** One turn of the loop of lines 112-136 whose condition fails. *)
Lemma reduce_operator_stay (t : gmap ascii OpContract) (c2 c : ascii)
    (f2 f : EvaluateFunc) (p2 p1 : Z) (a2 a1 : bool) (below : list Token)
    (out : list double) :
  t !! c2 = Some (Contract f2 p2 a2) ->
  t !! c = Some (Contract f p1 a1) ->
  (a2 && (p2 <=? p1)%Z) || (negb a2 && (p2 <? p1)%Z) = false ->
  reduce (Operator c2) (Operator c :: below) out t
  = (Return (Operator c :: below, out), t).
Proof.
  intros H2 H1 Hstay.
  change (reduce (Operator c2) (Operator c :: below) out t)
    with (bind (index c2) (fun contract1 =>
            bind (index c) (fun contract2 =>
              bind (reduces contract1 contract2) (fun go : bool =>
                if go then
                  bind (apply (Operator c) out)
                       (fun output => reduce (Operator c2) below output)
                else ret (Operator c :: below, out)))) t).
  unfold bind at 1. unfold index at 1. rewrite H2.
  unfold bind at 1. unfold index at 1. rewrite H1.
  unfold bind at 1. unfold reduces, ret. rewrite Hstay. reflexivity.
Qed.

(** X20. Three operands and two operators of which the second does not
    meet the condition of lines 119-122 against the first: both operators
    wait on the stack, the final loop applies the second to the first two
    operands, and the first to the third operand and that result. *)
Theorem expression_stacked_pair (t : gmap ascii OpContract)
    (x y z : double) (c1 c2 : ascii) (f1 f2 : EvaluateFunc) (p1 p2 : Z)
    (a1 a2 : bool) :
  t !! c1 = Some (Contract f1 p1 a1) ->
  t !! c2 = Some (Contract f2 p2 a2) ->
  (a2 && (p2 <=? p1)%Z) || (negb a2 && (p2 <? p1)%Z) = false ->
  expression [Number x; Operator c1; Number y; Operator c2; Number z] t
  = (Return (f1 z (f2 x y)), t).
Proof.
  intros H1 H2 Hstay.
  assert (Hscan : scan [Number x; Operator c1; Number y; Operator c2; Number z]
                    [] [] t
                  = (Return ([x; y; z], [Operator c2; Operator c1]), t)).
  { change (scan [Number x; Operator c1; Number y; Operator c2; Number z]
              [] [] t)
      with (bind (bind (reduce (Operator c2) [Operator c1] [x; y])
                    (fun r => match r with
                              | (ops, out) => ret (out, Operator c2 :: ops)
                              end))
              (fun r => match r with
                        | (o, ops) => scan [Number z] o ops
                        end) t).
    unfold bind.
    rewrite (reduce_operator_stay t c2 c1 f2 f1 p2 p1 a2 a1) by assumption.
    reflexivity. }
  unfold expression, bind. rewrite Hscan.
  change (drain [Operator c2; Operator c1] [x; y; z] t)
    with (bind (apply (Operator c2) [x; y; z])
            (fun output => drain [Operator c1] output) t).
  unfold bind. rewrite (apply_contract t c2 f2 p2 a2) by exact H2.
  apply (drain_pending t c1 f1 p1 a1). exact H1.
Qed.

Lemma expression_stacked_pair_witness :
  expression [Number 2; Operator "+"; Number 3; Operator "*"; Number 4]
    (opContracts Pow.repeated)
  = (Return (4 + 2 * 3), opContracts Pow.repeated).
Proof.
  apply (expression_stacked_pair (opContracts Pow.repeated) 2 3 4 "+" "*"
           (fun a b => a + b) (fun a b => a * b) 1 2 true true);
    reflexivity.
Defined.

(** X21. An operator that ends a line after at most one number ends the
    process with the operands diagnostic, whatever the operator: the
    check of the queue comes before the table is asked for a contract. *)
Theorem expression_dangling_operator (t : gmap ascii OpContract)
    (vs : list double) (c : ascii) :
  (length vs < 2)%nat ->
  expression (map Number vs ++ [Operator c]) t = (Exit InsufficientOperands, t).
Proof.
  intros Hlen. destruct vs as [|v [|w vs]]; [reflexivity|reflexivity|].
  simpl in Hlen. lia.
Qed.

Lemma expression_dangling_operator_witness :
  expression [Number 1; Operator "%"] (opContracts Pow.repeated)
  = (Exit InsufficientOperands, opContracts Pow.repeated).
Proof.
  apply (expression_dangling_operator (opContracts Pow.repeated) [1] "%").
  simpl. lia.
Defined.
